(** * Rougelike_Game: spell resolution ([src/magic.py]) and player actions
      ([source/actions.py])

    A shallow embedding of the spell layer of the game and of the player
    movement action, with the properties of the specification proved over
    it.  Python objects that are mutated in place (actors, the message log)
    live in an explicit game state; a function of the program is a
    computation in a small state-and-exception monad. *)

From Stdlib Require Import ZArith Lia String Ascii List.
From stdpp Require Import base option list sets strings pretty gmap.

Local Open Scope string_scope.
Local Open Scope list_scope.
Local Open Scope Z_scope.

(** ** Data model *)

(** A tile address [(x, y)]. *)
Definition Coords : Type := Z * Z.

(** The colour constants of [constants] that the spell layer passes on. *)
Inductive Color : Type :=
| COLOR_WHITE
| COLOR_BLUE
| COLOR_YELLOW
| COLOR_GREEN.

(** The creature component: the fields the spell layer reads and writes. *)
Record ComCreature : Type := mkCreature {
  personal_name : string;
  current_hp : Z;
  max_hp : Z
}.

(** The ai component.  [AiConfuse] is the wrapper built by [cast_confusion];
    every other behaviour of the game is an [AiOther].  [owner] is the
    back-reference to the actor, unset until it is assigned. *)
#[warnings="-register-all"] Inductive ComAi : Type :=
| AiOther (behaviour : string) (owner : option nat)
| AiConfuse (original_ai : option ComAi) (num_turns : Z) (owner : option nat).

(** An actor: position, display name and its optional components. *)
Record ObjActor : Type := mkActor {
  x : Z;
  y : Z;
  display_name : string;
  creature : option ComCreature;
  ai : option ComAi
}.

(** The process-wide state.  An actor object is identified by its position
    in [current_objects], which stands for the object's identity: mutating
    an actor updates the list in place.  [damage_log] is a history
    variable: it records every [take_damage] call (actor, amount), oldest
    first, and is never read by the program. *)
Record Game : Type := mkGame {
  current_objects : list ObjActor;
  message_history : list (string * Color);
  PLAYER : option nat;
  FOV_CALCULATE : bool;
  damage_log : list (nat * Z)
}.

Definition set_objects (objs : list ObjActor) (g : Game) : Game :=
  mkGame objs (message_history g) (PLAYER g) (FOV_CALCULATE g) (damage_log g).

Definition set_messages (msgs : list (string * Color)) (g : Game) : Game :=
  mkGame (current_objects g) msgs (PLAYER g) (FOV_CALCULATE g) (damage_log g).

Definition set_fov (b : bool) (g : Game) : Game :=
  mkGame (current_objects g) (message_history g) (PLAYER g) b (damage_log g).

Definition set_damage_log (l : list (nat * Z)) (g : Game) : Game :=
  mkGame (current_objects g) (message_history g) (PLAYER g) (FOV_CALCULATE g) l.

Definition actor_set_creature (c : option ComCreature) (a : ObjActor) : ObjActor :=
  mkActor (x a) (y a) (display_name a) c (ai a).

Definition actor_set_ai (b : option ComAi) (a : ObjActor) : ObjActor :=
  mkActor (x a) (y a) (display_name a) (creature a) b.

Definition actor_set_pos (nx ny : Z) (a : ObjActor) : ObjActor :=
  mkActor nx ny (display_name a) (creature a) (ai a).

Definition creature_set_hp (hp : Z) (c : ComCreature) : ComCreature :=
  mkCreature (personal_name c) hp (max_hp c).

(** ** Computations: state and Python exceptions *)

Inductive PyExn : Type :=
| AttributeError      (* attribute access on [None] *)
| UnboundLocalError   (* a local variable read before any assignment *)
| InvalidReference.   (* model only: an actor reference outside the store *)

Inductive outcome (A : Type) : Type :=
| Returns (a : A)
| Raises (e : PyExn).
Arguments Returns {A} a.
Arguments Raises {A} e.

(** A computation keeps the state it reached when it raises: Python does
    not roll mutations back. *)
Definition Py (A : Type) : Type := Game -> outcome A * Game.

Definition py_ret {A} (a : A) : Py A := fun g => (Returns a, g).

Definition py_bind {A B} (c : Py A) (k : A -> Py B) : Py B :=
  fun g =>
    match c g with
    | (Returns a, g') => k a g'
    | (Raises e, g') => (Raises e, g')
    end.

Definition py_raise {A} (e : PyExn) : Py A := fun g => (Raises e, g).

Definition py_get : Py Game := fun g => (Returns g, g).

Definition py_modify (f : Game -> Game) : Py unit := fun g => (Returns tt, f g).

#[global] Instance py_mret : MRet Py := @py_ret.
#[global] Instance py_mbind : MBind Py := fun A B k c => py_bind c k.

(** [obj.attr] on an optional component: [None.attr] raises. *)
Definition py_attr {A} (o : option A) : Py A :=
  match o with
  | Some a => py_ret a
  | None => py_raise AttributeError
  end.

(** Reading a local variable that may not have been assigned. *)
Definition py_local {A} (o : option A) : Py A :=
  match o with
  | Some a => py_ret a
  | None => py_raise UnboundLocalError
  end.

(** Dereferencing an actor reference. *)
Definition py_actor (ref : nat) : Py ObjActor :=
  fun g =>
    match current_objects g !! ref with
    | Some a => (Returns a, g)
    | None => (Raises InvalidReference, g)
    end.

(** In-place update of the actor behind a reference. *)
Definition py_update_actor (ref : nat) (f : ObjActor -> ObjActor) : Py unit :=
  py_modify (fun g => set_objects (alter f ref (current_objects g)) g).

(** ** Collaborators that are not under [src/] *)

(** Modelled from the spec: [game.game_message] is not under [src/]; a
    message is reported by appending it, with its colour, to the message
    history. *)
Definition game_message (msg : string) (color : Color) : Py unit :=
  py_modify (fun g => set_messages (message_history g ++ [(msg, color)]) g).

(** Modelled from the spec: [creature.move] is not under [src/]; the
    movement of a creature changes the position of its owner by the given
    offsets (obstacles are not represented). *)
Definition creature_move (owner_ref : nat) (dx dy : Z) : Py unit :=
  py_update_actor owner_ref (fun a => actor_set_pos (x a + dx) (y a + dy) a).

(** The actor stands on tile [(cx, cy)] and has a creature component. *)
Definition is_creature_at (cx cy : Z) (a : ObjActor) : bool :=
  (x a =? cx) && (y a =? cy) && bool_decide (is_Some (creature a)).

(** The position of the first such actor in a list of actors. *)
Fixpoint find_creature (cx cy : Z) (objs : list ObjActor) : option nat :=
  match objs with
  | [] => None
  | a :: rest =>
      if is_creature_at cx cy a then Some O
      else S <$> find_creature cx cy rest
  end.

(** Modelled from the spec: [map.creature_at_coords] is not under [src/];
    it looks up the creature occupying tile [(cx, cy)]: the first actor of
    the level at that address that has a creature component, or [None]. *)
Definition creature_at_coords (cx cy : Z) (g : Game) : option nat :=
  find_creature cx cy (current_objects g).

(** Modelled from the spec: the creature component's [take_damage] is not
    under [src/]; damage reduces current health by the specified amount,
    clamped at zero. *)
Definition take_damage (damage : Z) (c : ComCreature) : ComCreature :=
  let hp := current_hp c - damage in
  creature_set_hp (if hp <? 0 then 0 else hp) c.

(** [target.creature.take_damage(damage)] on the actor behind [target]. *)
Definition creature_take_damage (target : nat) (damage : Z) : Py unit :=
  actor ← py_actor target;
  c ← py_attr (creature actor);
  py_update_actor target (actor_set_creature (Some (take_damage damage c)));;
  py_modify (fun g => set_damage_log (damage_log g ++ [(target, damage)]) g).

(** Python truth value of an optional object. *)
Definition truthy {A} (o : option A) : bool :=
  match o with Some _ => true | None => false end.

(** The keyword arguments of a [tileselect.menu_tile_select] call; [None]
    is an argument the call leaves out. *)
Record TileSelectArgs : Type := mkTileSelectArgs {
  coords_origin : option Coords;
  max_range : option Z;
  radius : option Z;
  wall_pen : option bool;
  creature_pen : option bool;
  single_tile : option bool;
  base_color : option Color;
  target_color : option Color
}.

Definition ai_set_owner (o : option nat) (a : ComAi) : ComAi :=
  match a with
  | AiOther b _ => AiOther b o
  | AiConfuse orig n _ => AiConfuse orig n o
  end.

(** The three [menu_tile_select] calls of [magic.py]. *)
Definition lightening_select (caster_location : Coords) (max_r : Z) : TileSelectArgs :=
  mkTileSelectArgs (Some caster_location) (Some max_r) None (Some false) None
    None (Some COLOR_YELLOW) None.

Definition fireball_select (caster_location : Coords) (spell_range spell_radius : Z)
    : TileSelectArgs :=
  mkTileSelectArgs (Some caster_location) (Some spell_range) (Some spell_radius)
    (Some false) (Some false) None None None.

Definition confusion_select : TileSelectArgs :=
  mkTileSelectArgs None None None (Some false) None (Some true) None
    (Some COLOR_GREEN).

(** ** [src/magic.py] *)

Section Magic.

(** The tile-selection menu is interactive and the map queries are not
    under [src/]: the spells are embedded over any of them.
    [menu_tile_select] yields the tile the player chose, [None] when the
    player cancelled. *)
Variable menu_tile_select : TileSelectArgs -> Game -> option Coords.
Variable tiles_in_line : Coords -> Coords -> list Coords.
Variable tiles_in_radius : Coords -> Z -> list Coords.
(** The creature component's [heal] is not under [src/] either. *)
Variable heal : Z -> ComCreature -> ComCreature.

Definition cast_heal (target : nat) (value : Z) : Py bool :=
  actor ← py_actor target;
  c ← py_attr (creature actor);
  if current_hp c <? max_hp c then
    py_update_actor target (actor_set_creature (Some (heal value c)));;
    mret true
  else
    let full_hp_msg := personal_name c +:+ " is already at full health!" in
    game_message full_hp_msg COLOR_BLUE;;
    mret false.

(** The [for i, (x, y) in enumerate(tiles_affected)] loop of
    [cast_lightening], from index [i] on.  [inl b]: the function returned
    [b] from inside the loop; [inr d]: the loop ran to its end with
    [damaged_something = d]. *)
Fixpoint lightening_loop (damage : Z) (len : nat) (i : nat)
    (tiles : list Coords) (damaged_something : bool) : Py (bool + bool) :=
  match tiles with
  | [] => mret (inr damaged_something)
  | (tx, ty) :: rest =>
      g ← py_get;
      let target_creature := creature_at_coords tx ty g in
      damaged_something ←
        match target_creature with
        | Some target =>
            if negb (Nat.eqb i 0) then
              creature_take_damage target damage;;
              mret true
            else mret damaged_something
        | None => mret damaged_something
        end;
      if truthy target_creature && Nat.eqb len 1 then
        game_message "Watch out! Aim away from yourself please." COLOR_WHITE;;
        mret (inl false)
      else lightening_loop damage len (S i) rest damaged_something
  end.

Definition cast_lightening (caster : nat) (dmg_and_range : Z * Z) : Py bool :=
  c ← py_actor caster;
  let caster_location := (x c, y c) in
  let '(damage, max_r) := dmg_and_range in
  let damaged_something := false in
  g ← py_get;
  let selected_tile_address :=
    menu_tile_select (lightening_select caster_location max_r) g in
  match selected_tile_address with
  | Some selected =>
      let tiles_affected := tiles_in_line caster_location selected in
      r ← lightening_loop damage (length tiles_affected) 0 tiles_affected
            damaged_something;
      match r with
      | inl b => mret b
      | inr damaged_something =>
          c ← py_actor caster;
          cc ← py_attr (creature c);
          game_message (personal_name cc +:+ " casts lightening") COLOR_WHITE;;
          (if negb damaged_something then
             game_message "Nothing was hit, what a waste." COLOR_WHITE
           else mret tt);;
          mret true
      end
  | None => mret false
  end.

(** The [for (x, y) in list_of_tiles_to_damage] loop of [cast_fireball]. *)
Fixpoint fireball_loop (damage : Z) (tiles : list Coords)
    (damaged_something : bool) : Py bool :=
  match tiles with
  | [] => mret damaged_something
  | (tx, ty) :: rest =>
      g ← py_get;
      match creature_at_coords tx ty g with
      | Some target =>
          creature_take_damage target damage;;
          fireball_loop damage rest true
      | None => fireball_loop damage rest damaged_something
      end
  end.

Definition cast_fireball (caster : nat) (dmg_range_radius : Z * Z * Z) : Py bool :=
  let '(damage, spell_range, spell_radius) := dmg_range_radius in
  c ← py_actor caster;
  let caster_location := (x c, y c) in
  let damaged_something := false in
  g ← py_get;
  let selected_tile_address :=
    menu_tile_select
      (fireball_select caster_location spell_range spell_radius) g in
  match selected_tile_address with
  | Some selected =>
      cc ← py_attr (creature c);
      game_message (personal_name cc +:+ " casts fireball") COLOR_WHITE;;
      let list_of_tiles_to_damage := tiles_in_radius selected spell_radius in
      damaged_something ←
        fireball_loop damage list_of_tiles_to_damage damaged_something;
      (if negb damaged_something then
         game_message "Nothing was hit, what a waste." COLOR_WHITE
       else mret tt);;
      mret true
  | None => mret false
  end.

Definition cast_confusion (caster : nat) (effect_length : Z) : Py bool :=
  g ← py_get;
  let selected_tile_address :=
    menu_tile_select confusion_select g in
  match selected_tile_address with
  | Some (target_tile_x, target_tile_y) =>
      match creature_at_coords target_tile_x target_tile_y g with
      | Some target_creature =>
          c ← py_actor caster;
          cc ← py_attr (creature c);
          t ← py_actor target_creature;
          game_message
            (personal_name cc +:+ " casts confusion on " +:+ display_name t)
            COLOR_WHITE;;
          let normal_ai := ai t in
          py_update_actor target_creature
            (actor_set_ai (Some (AiConfuse normal_ai effect_length None)));;
          py_update_actor target_creature
            (fun a => actor_set_ai (ai_set_owner (Some target_creature) <$> ai a) a);;
          game_message
            (display_name t +:+ " is confused for " +:+ pretty effect_length
               +:+ " turns!")
            COLOR_GREEN;;
          mret true
      | None => mret true
      end
  | None => mret false
  end.

End Magic.

(** ** The confusion wrapper's turn *)

(** Modelled from the spec: the [AiConfuse] class ([components/ai]) is not
    under [src/]; the wrapper randomizes the movement of its owner for a
    fixed number of turns, then restores the original behaviour.  [ref] is
    the actor whose [ai.take_turn()] runs and [rnd] the random offsets drawn
    for this turn.  The turns of the other behaviours are not modelled. *)
Definition take_turn (ref : nat) (rnd : Z * Z) : Py unit :=
  a ← py_actor ref;
  match ai a with
  | Some (AiConfuse original_ai num_turns owner) =>
      o ← py_attr owner;
      if 0 <? num_turns then
        creature_move o (fst rnd) (snd rnd);;
        py_update_actor ref
          (actor_set_ai (Some (AiConfuse original_ai (num_turns - 1) owner)))
      else
        py_update_actor o (actor_set_ai original_ai)
  | _ => mret tt
  end.

(** The turns of one actor, one random draw per turn. *)
Fixpoint take_turns (ref : nat) (rnds : list (Z * Z)) : Py unit :=
  match rnds with
  | [] => mret tt
  | r :: rest => take_turn ref r;; take_turns ref rest
  end.

(** ** The map queries *)

Module Map.

Definition tile_add (p d : Coords) : Coords := (p.1 + d.1, p.2 + d.2).

(** Distance between two tiles, diagonal steps counting for one. *)
Definition tile_dist (p q : Coords) : Z :=
  Z.max (Z.abs (q.1 - p.1)) (Z.abs (q.2 - p.2)).

(** [n] steps of the integer line walk from tile [p]: every step advances
    along the major axis, and along the minor axis as well whenever the
    error term [e] runs below zero.  [a2] and [b2] are twice the extent of
    the line along its major and its minor axis. *)
Fixpoint line_steps (n : nat) (p : Coords) (e a2 b2 : Z)
    (major minor : Coords) : list Coords :=
  match n with
  | O => []
  | S n' =>
      let p1 := tile_add p major in
      let e1 := e - b2 in
      let p' := if e1 <? 0 then tile_add p1 minor else p1 in
      let e' := if e1 <? 0 then e1 + a2 else e1 in
      p' :: line_steps n' p' e' a2 b2 major minor
  end.

(** Modelled from the spec: [map.tiles_in_line] is not under [src/]; it
    computes the ordered sequence of tiles between caster and target.
    The sequence starts on the caster's tile [coords1] and walks the
    integer line to [coords2]. *)
Definition tiles_in_line (coords1 coords2 : Coords) : list Coords :=
  let deltax := coords2.1 - coords1.1 in
  let deltay := coords2.2 - coords1.2 in
  let stepx := Z.sgn deltax in
  let stepy := Z.sgn deltay in
  if Z.abs deltay <? Z.abs deltax then
    coords1 :: line_steps (Z.to_nat (Z.abs deltax)) coords1 (Z.abs deltax)
                 (2 * Z.abs deltax) (2 * Z.abs deltay) (stepx, 0) (0, stepy)
  else
    coords1 :: line_steps (Z.to_nat (Z.abs deltay)) coords1 (Z.abs deltay)
                 (2 * Z.abs deltay) (2 * Z.abs deltax) (0, stepy) (stepx, 0).

(** Modelled from the spec: [map.tiles_in_radius] is not under [src/]; it
    lists the tiles within a radius of the target, here the square of
    tiles at distance at most [radius], column by column. *)
Definition tiles_in_radius (coords : Coords) (radius : Z) : list Coords :=
  tx ← seqZ (coords.1 - radius) (2 * radius + 1);
  ty ← seqZ (coords.2 - radius) (2 * radius + 1);
  [(tx, ty)].

End Map.

(** Modelled from the spec: the creature component's [heal] is not under
    [src/]; healing adds to current health and keeps it within max health. *)
Definition heal_capped (value : Z) (c : ComCreature) : ComCreature :=
  let hp := current_hp c + value in
  creature_set_hp (if max_hp c <? hp then max_hp c else hp) c.

(** ** [source/actions.py] *)

(** [move_one_tile(direction)].  The locals [dx], [dy] are bound by one of
    the four branches only; the call expression evaluates its callee
    ([globalvars.PLAYER.creature.move]) before its arguments. *)
Definition move_one_tile (direction : string) : Py unit :=
  let dx_dy : option (Z * Z) :=
    if String.eqb direction "up" then Some (0, -1)
    else if String.eqb direction "down" then Some (0, 1)
    else if String.eqb direction "left" then Some (-1, 0)
    else if String.eqb direction "right" then Some (1, 0)
    else None in
  g ← py_get;
  player ← py_attr (PLAYER g);
  actor ← py_actor player;
  _ ← py_attr (creature actor);
  '(dx, dy) ← py_local dx_dy;
  creature_move player dx dy;;
  py_modify (set_fov true).

(** ** A small level, used to run the definitions *)

Definition hero : ObjActor :=
  mkActor 0 0 "Hero" (Some (mkCreature "Hero" 12 20)) None.
Definition rat : ObjActor :=
  mkActor 2 0 "giant rat" (Some (mkCreature "rat" 5 5))
    (Some (AiOther "chase" (Some 1%nat))).
Definition bat : ObjActor :=
  mkActor 3 0 "bat" (Some (mkCreature "bat" 2 4))
    (Some (AiOther "flee" (Some 2%nat))).
Definition potion : ObjActor := mkActor 1 0 "potion" None None.

Definition level : Game :=
  mkGame [hero; rat; bat; potion] [] (Some 0%nat) false [].

(** The player picks the given tile, or cancels. *)
Definition pick (t : option Coords) : TileSelectArgs -> Game -> option Coords :=
  fun _ _ => t.

(** What a computation added to the message history and to the damage
    log, given the state before and the state after. *)
Definition messages_emitted (g g' : Game) : list (string * Color) :=
  drop (length (message_history g)) (message_history g').

Definition damage_done (g g' : Game) : list (nat * Z) :=
  drop (length (damage_log g)) (damage_log g').

(** A [heal] that keeps current health within max health. *)
Definition heal_within_max (heal : Z -> ComCreature -> ComCreature) : Prop :=
  forall value c,
    current_hp c <= max_hp c -> current_hp (heal value c) <= max_hp (heal value c).

(** The ai component of the actor behind a reference, if the actor exists. *)
Definition ai_of (g : Game) (ref : nat) : option (option ComAi) :=
  ai <$> current_objects g !! ref.

(** The messages of the damage spells. *)
Definition nothing_was_hit : string * Color :=
  ("Nothing was hit, what a waste.", COLOR_WHITE).

Definition aim_away : string * Color :=
  ("Watch out! Aim away from yourself please.", COLOR_WHITE).

Definition casts_lightening (cc : ComCreature) : string * Color :=
  (personal_name cc +:+ " casts lightening", COLOR_WHITE).

Definition casts_fireball (cc : ComCreature) : string * Color :=
  (personal_name cc +:+ " casts fireball", COLOR_WHITE).

(** A message with the given text was emitted between [g] and [g']. *)
Definition emitted_text (g g' : Game) (text : string) : Prop :=
  exists color, (text, color) ∈ messages_emitted g g'.

(** The four directions [move_one_tile] knows. *)
Definition known_direction (direction : string) : Prop :=
  direction = "up" \/ direction = "down" \/ direction = "left"
  \/ direction = "right".

(** An actor after one [take_damage] call on its creature component. *)
Definition damaged (damage : Z) (a : ObjActor) : ObjActor :=
  actor_set_creature (take_damage damage <$> creature a) a.

(** The state change of one [take_damage] call on actor [k], and of a
    sequence of them. *)
Definition damage_actor (damage : Z) (k : nat) (g : Game) : Game :=
  set_damage_log (damage_log g ++ [(k, damage)])
    (set_objects (alter (damaged damage) k (current_objects g)) g).

Definition apply_hits (damage : Z) (ks : list nat) (g : Game) : Game :=
  foldl (fun g k => damage_actor damage k g) g ks.

(** The creatures found on a list of tiles, in the order of the tiles. *)
Definition hits (g : Game) (tiles : list Coords) : list nat :=
  omap (fun t => creature_at_coords t.1 t.2 g) tiles.

(** Actor [k] is a creature standing on tile [t]. *)
Definition occupies (g : Game) (k : nat) (t : Coords) : Prop :=
  exists a, current_objects g !! k = Some a /\ (x a, y a) = t /\
            is_Some (creature a).

(** No two creatures of the level share a tile. *)
Definition creatures_apart (g : Game) : Prop :=
  forall j k t, occupies g j t -> occupies g k t -> j = k.

(** ** [src/assets.py]: sprite sheets *)

Module Assets.

(** The faults of the asset code: a missing dictionary key, attribute
    access on [None], a sound file that cannot be loaded. *)
Inductive Exn : Type :=
| KeyError (key : string)
| AttributeError
| LoadError (path : list string).

Inductive res (A : Type) : Type :=
| Ok (a : A)
| Raise (e : Exn).
Arguments Ok {A} a.
Arguments Raise {A} e.

(** A rectangle [(left, top, width, height)] of the sprite sheet. *)
Definition Rect : Type := Z * Z * Z * Z.

(** A sprite surface, described by how it is made: a fresh surface of size
    [surface_size], the rectangle [area] of the sheet blitted onto it at
    [(0, 0)], and the size it is scaled to afterwards, if it is. *)
Record Sprite : Type := mkSprite {
  surface_size : Z * Z;
  area : Rect;
  scaled_to : option (Z * Z)
}.

Definition scale_sprite (size : Z * Z) (s : Sprite) : Sprite :=
  mkSprite (surface_size s) (area s) (Some size).

(** [ObjSpriteSheet.tileDict]: letters to columns of the sheet. *)
Definition tileDict : gmap string Z :=
  list_to_map
    [("A", 0); ("a", 1); ("b", 2); ("c", 3); ("d", 4); ("e", 5); ("f", 6);
     ("g", 7); ("h", 8); ("i", 9); ("j", 10); ("k", 11); ("l", 12);
     ("m", 13); ("n", 14); ("o", 15); ("p", 16); ("q", 17); ("r", 18);
     ("s", 19); ("t", 20); ("u", 21); ("v", 22); ("w", 23); ("x", 24);
     ("y", 25); ("z", 26); ("a1", 27); ("b1", 28); ("c1", 29); ("d1", 30);
     ("e1", 31); ("f1", 32); ("g1", 33)].

(** [self.tileDict[col]]. *)
Definition tileDict_getitem (col : string) : res Z :=
  match tileDict !! col with
  | Some c => Ok c
  | None => Raise (KeyError col)
  end.

(** [ObjSpriteSheet.get_image(col, row, w, h, scale)]; [scale = None] is
    the default. *)
Definition get_image (col : string) (row w h : Z) (scale : option (Z * Z))
    : res (list Sprite) :=
  let image_list := [] in
  match tileDict_getitem col with
  | Raise e => Raise e
  | Ok c =>
      let image_surface := mkSprite (w, h) (c * w, row * h, w, h) None in
      let image_surface :=
        match scale with
        | Some size => scale_sprite size image_surface
        | None => image_surface
        end in
      Ok (image_list ++ [image_surface])
  end.

(** The [for i in range(num_sprites)] loop of [get_animation], over the
    indices still to visit. *)
Fixpoint animation_loop (col : string) (row w h : Z) (scale : option (Z * Z))
    (indices : list Z) (animation_list : list Sprite) : res (list Sprite) :=
  match indices with
  | [] => Ok animation_list
  | i :: rest =>
      match tileDict_getitem col with
      | Raise e => Raise e
      | Ok c =>
          let sprite_surface :=
            mkSprite (w, h) (c * w + w * i, row * h, w, h) None in
          let sprite_surface :=
            match scale with
            | Some size => scale_sprite size sprite_surface
            | None => sprite_surface
            end in
          animation_loop col row w h scale rest
            (animation_list ++ [sprite_surface])
      end
  end.

(** [ObjSpriteSheet.get_animation(col, row, num_sprites, w, h, scale)]. *)
Definition get_animation (col : string) (row num_sprites w h : Z)
    (scale : option (Z * Z)) : res (list Sprite) :=
  animation_loop col row w h scale (seqZ 0 num_sprites) [].

(** ** [src/assets.py]: sound effects and volume *)

(** A pygame [Sound] object: the path it was loaded from, as the components
    given to [os.path.join], and the volume last given to [set_volume]
    ([None]: never set). *)
Record Sound (Vol : Type) : Type := mkSound {
  sound_path : list string;
  volume : option Vol
}.
Arguments mkSound {Vol} _ _.
Arguments sound_path {Vol} _.
Arguments volume {Vol} _.

(** [globalvars.PREFERENCES]: the two volume settings. *)
Record Preferences (Vol : Type) : Type := mkPreferences {
  sfx_volume_val : Vol;
  music_volume_val : Vol
}.
Arguments mkPreferences {Vol} _ _.
Arguments sfx_volume_val {Vol} _.
Arguments music_volume_val {Vol} _.

(** The audio state: the [Sound] objects created so far ([sounds], a sound
    object is identified by its position), [self.sfx_list] as references
    into them, the volume of [pygame.mixer.music], and
    [globalvars.PREFERENCES]. *)
Record Audio (Vol : Type) : Type := mkAudio {
  sounds : list (Sound Vol);
  sfx_list : list nat;
  music_volume : option Vol;
  PREFERENCES : option (Preferences Vol)
}.
Arguments mkAudio {Vol} _ _ _ _.
Arguments sounds {Vol} _.
Arguments sfx_list {Vol} _.
Arguments music_volume {Vol} _.
Arguments PREFERENCES {Vol} _.

Section Sfx.

(** Volumes are floating-point numbers that the code only passes on. *)
Context {Vol : Type}.
(** Whether [pygame.mixer.Sound] can load the file at a path. *)
Variable loadable : list string -> bool.

(** [ObjAssets.sfx_add(file_name)]: the new sound's reference. *)
Definition sfx_add (file_name : string) (self : Audio Vol) : res nat * Audio Vol :=
  let path := ["data"; "audio"; "sfx"; file_name] in
  if loadable path then
    let new_sfx := length (sounds self) in
    (Ok new_sfx,
     mkAudio (sounds self ++ [mkSound path None]) (sfx_list self ++ [new_sfx])
       (music_volume self) (PREFERENCES self))
  else (Raise (LoadError path), self).

(** [sfx.set_volume(v)] on the sound behind a reference. *)
Definition set_volume (sfx : nat) (v : Vol) (self : Audio Vol) : Audio Vol :=
  mkAudio (alter (fun s => mkSound (sound_path s) (Some v)) sfx (sounds self))
    (sfx_list self) (music_volume self) (PREFERENCES self).

(** The [for sfx in self.sfx_list] loop of [volume_adjust]. *)
Fixpoint volume_loop (sfxs : list nat) (self : Audio Vol) : res unit * Audio Vol :=
  match sfxs with
  | [] => (Ok tt, self)
  | sfx :: rest =>
      match PREFERENCES self with
      | None => (Raise AttributeError, self)
      | Some prefs => volume_loop rest (set_volume sfx (sfx_volume_val prefs) self)
      end
  end.

(** [ObjAssets.volume_adjust()]. *)
Definition volume_adjust (self : Audio Vol) : res unit * Audio Vol :=
  match volume_loop (sfx_list self) self with
  | (Raise e, self') => (Raise e, self')
  | (Ok _, self') =>
      match PREFERENCES self' with
      | None => (Raise AttributeError, self')
      | Some prefs =>
          (Ok tt,
           mkAudio (sounds self') (sfx_list self')
             (Some (music_volume_val prefs)) (PREFERENCES self'))
      end
  end.

(** Adding sound effects one after the other, as [ObjAssets.__init__]
    does; stops at the first that fails. *)
Fixpoint sfx_add_all (file_names : list string) (self : Audio Vol)
    : res (list nat) * Audio Vol :=
  match file_names with
  | [] => (Ok [], self)
  | f :: rest =>
      match sfx_add f self with
      | (Raise e, self') => (Raise e, self')
      | (Ok r, self') =>
          match sfx_add_all rest self' with
          | (Raise e, self'') => (Raise e, self'')
          | (Ok rs, self'') => (Ok (r :: rs), self'')
          end
      end
  end.

End Sfx.

(** The volume of the sound behind a reference. *)
Definition volume_of {Vol} (self : Audio Vol) (sfx : nat) : option (option Vol) :=
  volume <$> sounds self !! sfx.

(** Every sound effect of the list exists. *)
Definition sfx_list_valid {Vol} (self : Audio Vol) : Prop :=
  forall sfx, sfx ∈ sfx_list self -> (sfx < length (sounds self))%nat.

End Assets.

(** ** [source/actions.py]: stairs and items *)

(** Computations over any world state, with Python exceptions. *)
Definition PyOver (W A : Type) : Type := W -> outcome A * W.

#[global] Instance pyover_mret {W} : MRet (PyOver W) :=
  fun A a w => (Returns a, w).
#[global] Instance pyover_mbind {W} : MBind (PyOver W) :=
  fun A B k c w =>
    match c w with
    | (Returns a, w') => k a w'
    | (Raises e, w') => (Raises e, w')
    end.

Definition over_get {W} : PyOver W W := fun w => (Returns w, w).

Definition over_attr {W A} (o : option A) : PyOver W A :=
  fun w =>
    match o with
    | Some a => (Returns a, w)
    | None => (Raises AttributeError, w)
    end.

Section Actions.

(** The components these actions work with (stairs, portals, items,
    containers) and the map query are not under [src/]: the actions are
    embedded over any world state and any behaviour of theirs.  An [Obj]
    is a reference to an actor object. *)
Variable World : Type.
Variable Obj : Type.
(** [globalvars.PLAYER], and [obj.x], [obj.y]. *)
Variable PLAYER_of : World -> option Obj.
Variable obj_x obj_y : Obj -> World -> Z.
(** [map.map_object_at_coords(x, y)]. *)
Variable map_object_at_coords : Z -> Z -> World -> list Obj.
(** The truth values of [obj.stairs], [obj.portal] and [obj.item]. *)
Variable obj_stairs obj_portal obj_item : Obj -> World -> bool.
(** [obj.stairs.use()], [obj.portal.use()], [obj.item.pick_up(actor)] and
    [obj.item.drop(x, y)]. *)
Variable stairs_use portal_use : Obj -> PyOver World unit.
Variable item_pick_up : Obj -> option Obj -> PyOver World unit.
Variable item_drop : Obj -> Z -> Z -> PyOver World unit.
(** [obj.container.inventory]; [None] when [obj.container] is [None]. *)
Variable container_inventory : Obj -> World -> option (list Obj).

(** The [for obj in list_of_obj] loop of [use_stairs].  The assignment
    [FLOOR_CHANGED = True] binds a local of the function: nothing reads
    it. *)
Fixpoint use_stairs_loop (list_of_obj : list Obj) : PyOver World (option string) :=
  match list_of_obj with
  | [] => mret None
  | obj :: rest =>
      w ← over_get;
      if obj_stairs obj w then
        stairs_use obj;;
        let FLOOR_CHANGED := true in
        mret (Some "Just Changed Floors")
      else
        w ← over_get;
        (if obj_portal obj w then portal_use obj else mret tt);;
        use_stairs_loop rest
  end.

Definition use_stairs : PyOver World (option string) :=
  w ← over_get;
  player ← over_attr (PLAYER_of w);
  let list_of_obj :=
    map_object_at_coords (obj_x player w) (obj_y player w) w in
  use_stairs_loop list_of_obj.

(** The [for obj in objects_at_player] loop of [grab_item]. *)
Fixpoint grab_item_loop (objects_at_player : list Obj) : PyOver World unit :=
  match objects_at_player with
  | [] => mret tt
  | obj :: rest =>
      w ← over_get;
      (if obj_item obj w then item_pick_up obj (PLAYER_of w) else mret tt);;
      grab_item_loop rest
  end.

Definition grab_item : PyOver World unit :=
  w ← over_get;
  player ← over_attr (PLAYER_of w);
  let objects_at_player :=
    map_object_at_coords (obj_x player w) (obj_y player w) w in
  grab_item_loop objects_at_player.

Definition drop_item : PyOver World unit :=
  w ← over_get;
  player ← over_attr (PLAYER_of w);
  inventory ← over_attr (container_inventory player w);
  if (0 <? length inventory)%nat then
    match last inventory with
    | Some obj =>
        if obj_item obj w then
          item_drop obj (obj_x player w) (obj_y player w)
        else over_attr None
    | None => mret tt
    end
  else mret tt.

(** Picking up a list of objects one after the other. *)
Fixpoint pick_up_all (objs : list Obj) : PyOver World unit :=
  match objs with
  | [] => mret tt
  | obj :: rest =>
      w ← over_get;
      item_pick_up obj (PLAYER_of w);;
      pick_up_all rest
  end.

(** Picking an object up leaves the [item] components of the other
    objects as they are. *)
Definition pick_up_keeps_items : Prop :=
  forall obj actor w o,
    o <> obj ->
    obj_item o (item_pick_up obj actor w).2 = obj_item o w.

End Actions.

(** The two messages of [cast_confusion], and the target once confused. *)
Definition casts_confusion_on (cc : ComCreature) (t : ObjActor) : string * Color :=
  (personal_name cc +:+ " casts confusion on " +:+ display_name t, COLOR_WHITE).

Definition is_confused_for (t : ObjActor) (effect_length : Z) : string * Color :=
  (display_name t +:+ " is confused for " +:+ pretty effect_length +:+ " turns!",
   COLOR_GREEN).

Definition confused (effect_length : Z) (target : nat) (t : ObjActor) : ObjActor :=
  actor_set_ai (Some (AiConfuse (ai t) effect_length (Some target))) t.


(** A sound after [set_volume(v)]. *)
Definition with_volume {Vol} (v : Vol) (s : Assets.Sound Vol) : Assets.Sound Vol :=
  Assets.mkSound (Assets.sound_path s) (Some v).

(** An audio state with one sound loaded and the preferences set, used to
    run the definitions. *)
Definition quiet : Assets.Audio Z :=
  Assets.mkAudio [Assets.mkSound ["data"; "audio"; "sfx"; "click3.wav"] None]
    [0%nat] None (Some (Assets.mkPreferences 30 60)).

(** A small world for the actions, used to run the definitions: the world
    is the record of what was used, picked up and dropped so far. *)
Inductive Done : Type :=
| UsedStairs (obj : nat)
| UsedPortal (obj : nat)
| PickedUp (obj : nat) (actor : option nat)
| Dropped (obj : nat) (at_x at_y : Z).

Definition record_done (d : Done) : PyOver (list Done) unit :=
  fun w => (Returns tt, w ++ [d]).

(** * Properties *)

Ltac py_unfold :=
  unfold mbind, mret, py_mbind, py_mret, py_bind, py_ret, py_raise, py_get,
    py_modify, py_attr, py_local, py_actor, py_update_actor, game_message.

(** ** [move_one_tile] *)

Lemma unknown_direction_unbound (direction : string) :
  ~ known_direction direction ->
  String.eqb direction "up" = false /\ String.eqb direction "down" = false /\
  String.eqb direction "left" = false /\ String.eqb direction "right" = false.
Proof.
  unfold known_direction. intros Hn.
  repeat split; apply String.eqb_neq; intros ->; tauto.
Qed.

(** C8: on a direction string other than "up", "down", "left" and "right"
    [move_one_tile] raises: it never returns, the game state is left as it
    was, and whenever the player has a creature component the fault is the
    read of the unassigned locals [dx], [dy]. *)
Theorem move_one_tile_unknown_direction_raises (direction : string) (g : Game) :
  ~ known_direction direction ->
  (exists e, move_one_tile direction g = (Raises e, g)) /\
  (forall p a c,
      PLAYER g = Some p -> current_objects g !! p = Some a ->
      creature a = Some c ->
      move_one_tile direction g = (Raises UnboundLocalError, g)).
Proof.
  intros Hdir.
  destruct (unknown_direction_unbound direction Hdir) as (Hu & Hd & Hl & Hr).
  unfold move_one_tile. rewrite Hu, Hd, Hl, Hr. py_unfold. split.
  - destruct (PLAYER g) as [p|]; cbn; [|eauto].
    destruct (current_objects g !! p) as [a|]; cbn; [|eauto].
    destruct (creature a); cbn; eauto.
  - intros p a c Hp Ha Hc.
    rewrite Hp; cbn. rewrite Ha; cbn. rewrite Hc. reflexivity.
Qed.

Lemma move_one_tile_unknown_direction_raises_witness :
  ~ known_direction "north" /\
  move_one_tile "north" level = (Raises UnboundLocalError, level).
Proof.
  assert (H : ~ known_direction "north")
    by (unfold known_direction; intros [?|[?|[?|?]]]; discriminate).
  split; [exact H|].
  apply (proj2 (move_one_tile_unknown_direction_raises "north" level H)
           0%nat hero (mkCreature "Hero" 12 20)); reflexivity.
Defined.

(** ** Looking creatures up by tile *)

Lemma is_creature_at_spec cx cy a :
  is_creature_at cx cy a = true <->
  (x a, y a) = (cx, cy) /\ is_Some (creature a).
Proof.
  unfold is_creature_at. rewrite !andb_true_iff, !Z.eqb_eq, bool_decide_eq_true.
  split; [intros [[-> ->] ?]; auto | intros [[= -> ->] ?]; auto].
Qed.

Lemma find_creature_Some cx cy objs k :
  find_creature cx cy objs = Some k ->
  exists a, objs !! k = Some a /\ is_creature_at cx cy a = true.
Proof.
  revert k. induction objs as [|a objs IH]; intros k; simpl; [discriminate|].
  destruct (is_creature_at cx cy a) eqn:Ha.
  - intros [= <-]. eauto.
  - destruct (find_creature cx cy objs) as [j|]; [|discriminate].
    intros [= <-]. apply IH. reflexivity.
Qed.

Lemma find_creature_first cx cy objs k j a :
  find_creature cx cy objs = Some k -> objs !! j = Some a ->
  is_creature_at cx cy a = true -> (k <= j)%nat.
Proof.
  revert k j. induction objs as [|b objs IH]; intros k j; simpl; [discriminate|].
  destruct (is_creature_at cx cy b) eqn:Hb.
  - intros [= <-] _ _. lia.
  - destruct (find_creature cx cy objs) as [i|] eqn:Hf; [|discriminate].
    intros [= <-]. destruct j as [|j]; simpl.
    + intros [= ->]. congruence.
    + intros Hj Ha. specialize (IH i j eq_refl Hj Ha). lia.
Qed.

Lemma find_creature_None cx cy objs j a :
  find_creature cx cy objs = None -> objs !! j = Some a ->
  is_creature_at cx cy a = false.
Proof.
  revert j. induction objs as [|b objs IH]; intros j; simpl; [discriminate|].
  destruct (is_creature_at cx cy b) eqn:Hb; [discriminate|].
  destruct (find_creature cx cy objs) as [i|] eqn:Hf; [discriminate|].
  intros _. destruct j as [|j]; simpl.
  - intros [= ->]. exact Hb.
  - intros Hj. apply (IH j eq_refl Hj).
Qed.

Lemma find_creature_alter cx cy f k objs :
  (forall a, is_creature_at cx cy (f a) = is_creature_at cx cy a) ->
  find_creature cx cy (alter f k objs) = find_creature cx cy objs.
Proof.
  intros Hf. revert k. induction objs as [|a objs IH]; intros k; [reflexivity|].
  destruct k as [|k]; cbn.
  - rewrite Hf. reflexivity.
  - change (list_alter f k objs) with (alter f k objs).
    rewrite IH. reflexivity.
Qed.

Lemma creature_at_coords_occupies g t k :
  creature_at_coords t.1 t.2 g = Some k -> occupies g k t.
Proof.
  unfold creature_at_coords, occupies. intros H.
  apply find_creature_Some in H as (a & Ha & Hc).
  apply is_creature_at_spec in Hc as [Hpos Hc].
  exists a. destruct t; auto.
Qed.

(** Where no two creatures share a tile, the lookup finds the creature
    that occupies the tile. *)
Lemma creature_at_coords_occupant g t k :
  creatures_apart g ->
  creature_at_coords t.1 t.2 g = Some k <-> occupies g k t.
Proof.
  intros Hap. split; [apply creature_at_coords_occupies|].
  intros Hocc. destruct (creature_at_coords t.1 t.2 g) as [j|] eqn:Hj.
  - f_equal. apply (Hap j k t); [|exact Hocc].
    apply creature_at_coords_occupies. exact Hj.
  - destruct Hocc as (a & Ha & Hpos & Hc).
    pose proof (find_creature_None _ _ _ _ _ Hj Ha) as Hn.
    assert (is_creature_at t.1 t.2 a = true) as Ht
      by (apply is_creature_at_spec; destruct t; auto).
    congruence.
Qed.

Lemma creature_at_coords_inj g t t' k :
  creature_at_coords t.1 t.2 g = Some k ->
  creature_at_coords t'.1 t'.2 g = Some k -> t = t'.
Proof.
  intros H H'.
  apply creature_at_coords_occupies in H as (a & Ha & Hp & _).
  apply creature_at_coords_occupies in H' as (a' & Ha' & Hp' & _).
  congruence.
Qed.

(** ** The effect of [take_damage] calls on the game state *)

Lemma is_creature_at_damaged cx cy damage a :
  is_creature_at cx cy (damaged damage a) = is_creature_at cx cy a.
Proof.
  unfold is_creature_at, damaged. simpl. f_equal.
  apply bool_decide_ext. rewrite fmap_is_Some. reflexivity.
Qed.

Lemma creature_take_damage_run g k a c damage :
  current_objects g !! k = Some a -> creature a = Some c ->
  creature_take_damage k damage g = (Returns tt, damage_actor damage k g).
Proof.
  intros Ha Hc. unfold creature_take_damage. py_unfold.
  rewrite Ha; cbn. rewrite Hc; cbn. unfold damage_actor. do 2 f_equal.
  unfold set_objects; simpl. f_equal.
  apply list_alter_ext; [|reflexivity].
  intros b Hb. assert (b = a) as -> by congruence.
  unfold damaged. rewrite Hc. reflexivity.
Qed.

Lemma creature_at_coords_damage_actor cx cy damage k g :
  creature_at_coords cx cy (damage_actor damage k g) = creature_at_coords cx cy g.
Proof.
  unfold creature_at_coords, damage_actor; simpl.
  apply find_creature_alter. intros a. apply (is_creature_at_damaged cx cy damage a).
Qed.

Lemma hits_cons g t tiles :
  hits g (t :: tiles) =
  match creature_at_coords t.1 t.2 g with
  | Some k => k :: hits g tiles
  | None => hits g tiles
  end.
Proof. unfold hits. cbn. destruct (creature_at_coords t.1 t.2 g); reflexivity. Qed.

Lemma hits_damage_actor damage k g tiles :
  hits (damage_actor damage k g) tiles = hits g tiles.
Proof.
  induction tiles as [|t tiles IH]; [reflexivity|].
  rewrite !hits_cons, creature_at_coords_damage_actor, IH. reflexivity.
Qed.

Lemma elem_of_hits g tiles k :
  k ∈ hits g tiles <-> exists t, t ∈ tiles /\ creature_at_coords t.1 t.2 g = Some k.
Proof. unfold hits. apply list_elem_of_omap. Qed.

(** Distinct tiles hold distinct creatures. *)
Lemma NoDup_hits g tiles : NoDup tiles -> NoDup (hits g tiles).
Proof.
  induction 1 as [|t tiles Hnotin Hnd IH]; [constructor|].
  rewrite hits_cons. destruct (creature_at_coords t.1 t.2 g) as [k|] eqn:Hk; [|exact IH].
  constructor; [|exact IH].
  intros (t' & Ht' & Hk')%elem_of_hits.
  assert (t = t') as -> by (eapply creature_at_coords_inj; eauto).
  exact (Hnotin Ht').
Qed.

Lemma apply_hits_cons damage k ks g :
  apply_hits damage (k :: ks) g = apply_hits damage ks (damage_actor damage k g).
Proof. reflexivity. Qed.

Lemma apply_hits_messages damage ks g :
  message_history (apply_hits damage ks g) = message_history g.
Proof.
  revert g. induction ks as [|k ks IH]; intros g; [reflexivity|].
  rewrite apply_hits_cons, IH. reflexivity.
Qed.

Lemma apply_hits_damage_log damage ks g :
  damage_log (apply_hits damage ks g)
  = damage_log g ++ ((fun k => (k, damage)) <$> ks).
Proof.
  revert g. induction ks as [|k ks IH]; intros g.
  - simpl. rewrite app_nil_r. reflexivity.
  - rewrite apply_hits_cons, IH. simpl. rewrite <- app_assoc. reflexivity.
Qed.

(** An actor that is not hit is left as it was. *)
Lemma apply_hits_lookup_other damage ks g j :
  j ∉ ks ->
  current_objects (apply_hits damage ks g) !! j = current_objects g !! j.
Proof.
  revert g. induction ks as [|k ks IH]; intros g Hj; [reflexivity|].
  apply not_elem_of_cons in Hj as [Hne Hj].
  rewrite apply_hits_cons, (IH _ Hj).
  unfold damage_actor; simpl. apply list_lookup_alter_ne. congruence.
Qed.

(** An actor that is hit once has [take_damage] applied once. *)
Lemma apply_hits_lookup_once damage ks g j :
  NoDup ks -> j ∈ ks ->
  current_objects (apply_hits damage ks g) !! j
  = damaged damage <$> current_objects g !! j.
Proof.
  intros Hnd. revert g. induction Hnd as [|k ks Hk Hnd IH]; intros g Hj.
  - set_solver.
  - rewrite apply_hits_cons. destruct (decide (j = k)) as [->|Hne].
    + rewrite apply_hits_lookup_other by exact Hk.
      unfold damage_actor; simpl. apply list_lookup_alter_eq.
    + apply elem_of_cons in Hj as [Hj|Hj]; [contradiction|].
      rewrite (IH _ Hj).
      unfold damage_actor; simpl. rewrite list_lookup_alter_ne by congruence.
      reflexivity.
Qed.

(** Damage changes neither who an actor is nor where it stands. *)
Lemma apply_hits_lookup_frame damage ks g j a :
  current_objects g !! j = Some a ->
  exists a', current_objects (apply_hits damage ks g) !! j = Some a' /\
    x a' = x a /\ y a' = y a /\ display_name a' = display_name a /\
    ai a' = ai a /\
    personal_name <$> creature a' = personal_name <$> creature a /\
    max_hp <$> creature a' = max_hp <$> creature a.
Proof.
  revert g a. induction ks as [|k ks IH]; intros g a Ha.
  - exists a. auto 10.
  - rewrite apply_hits_cons.
    destruct (decide (k = j)) as [->|Hne].
    + destruct (IH (damage_actor damage j g) (damaged damage a))
        as (a' & Ha' & Hx & Hy & Hd & Hai & Hn & Hm).
      { unfold damage_actor; simpl. rewrite list_lookup_alter_eq, Ha. reflexivity. }
      exists a'. split; [exact Ha'|]. rewrite Hx, Hy, Hd, Hai, Hn, Hm.
      unfold damaged; simpl. destruct (creature a); auto 10.
    + apply IH. unfold damage_actor; simpl.
      rewrite list_lookup_alter_ne by exact Hne. exact Ha.
Qed.

(** ** The damage loops *)

Lemma fireball_loop_run damage tiles d g :
  fireball_loop damage tiles d g
  = (Returns (d || bool_decide (hits g tiles <> [])),
     apply_hits damage (hits g tiles) g).
Proof.
  revert d g. induction tiles as [|[tx ty] tiles IH]; intros d g.
  - simpl. py_unfold. rewrite orb_false_r. reflexivity.
  - rewrite hits_cons. simpl. py_unfold. cbn.
    destruct (creature_at_coords tx ty g) as [k|] eqn:Hk.
    + destruct (creature_at_coords_occupies g (tx, ty) k Hk) as (a & Ha & _ & [c Hc]).
      rewrite (creature_take_damage_run g k a c damage Ha Hc).
      rewrite IH, hits_damage_actor. rewrite orb_true_r. reflexivity.
    + apply IH.
Qed.

Lemma lightening_loop_run damage len i tiles d g :
  i <> 0%nat -> len <> 1%nat ->
  lightening_loop damage len i tiles d g
  = (Returns (inr (d || bool_decide (hits g tiles <> []))),
     apply_hits damage (hits g tiles) g).
Proof.
  intros Hi Hlen. revert i Hi d g.
  induction tiles as [|[tx ty] tiles IH]; intros i Hi d g.
  - simpl. py_unfold. rewrite orb_false_r. reflexivity.
  - rewrite hits_cons. simpl. py_unfold. cbn.
    apply Nat.eqb_neq in Hlen as Hlen'. rewrite Hlen', andb_false_r.
    destruct i as [|i]; [congruence|]. simpl.
    destruct (creature_at_coords tx ty g) as [k|] eqn:Hk.
    + destruct (creature_at_coords_occupies g (tx, ty) k Hk) as (a & Ha & _ & [c Hc]).
      rewrite (creature_take_damage_run g k a c damage Ha Hc). cbn.
      rewrite IH by lia. rewrite hits_damage_actor, orb_true_r. reflexivity.
    + cbn. apply IH. lia.
Qed.

(** The first tile of the line is looked up but never damaged. *)
Lemma lightening_loop_first damage len t tiles d g :
  len <> 1%nat ->
  lightening_loop damage len 0 (t :: tiles) d g
  = lightening_loop damage len 1 tiles d g.
Proof.
  intros Hlen. destruct t as [tx ty]. simpl. py_unfold. cbn.
  apply Nat.eqb_neq in Hlen. rewrite Hlen, andb_false_r.
  destruct (creature_at_coords tx ty g); reflexivity.
Qed.

(** A line of one tile: the guard against aiming at oneself. *)
Lemma lightening_loop_single damage t d g :
  lightening_loop damage 1 0 [t] d g
  = match creature_at_coords t.1 t.2 g with
    | Some _ =>
        (Returns (inl false),
         set_messages
           (message_history g
              ++ [("Watch out! Aim away from yourself please.", COLOR_WHITE)]) g)
    | None => (Returns (inr d), g)
    end.
Proof.
  destruct t as [tx ty]. simpl. py_unfold. cbn.
  destruct (creature_at_coords tx ty g); reflexivity.
Qed.

Lemma messages_emitted_app msgs g g1 :
  messages_emitted g (set_messages (message_history g ++ msgs) g1) = msgs.
Proof. unfold messages_emitted; cbn. apply drop_app_length. Qed.

Lemma filter_hits_log damage ks k :
  NoDup ks ->
  filter (fun e : nat * Z => e.1 = k) ((fun j => (j, damage)) <$> ks)
  = if bool_decide (k ∈ ks) then [(k, damage)] else [].
Proof.
  induction 1 as [|j ks Hj Hnd IH]; [reflexivity|].
  rewrite fmap_cons. destruct (decide (j = k)) as [->|Hne].
  - rewrite filter_cons_True by reflexivity. rewrite IH.
    rewrite (bool_decide_true (k ∈ k :: ks)) by left.
    rewrite bool_decide_false by exact Hj. reflexivity.
  - rewrite filter_cons_False by exact Hne. rewrite IH.
    rewrite (bool_decide_ext (k ∈ j :: ks) (k ∈ ks)); [reflexivity|].
    rewrite elem_of_cons. intuition congruence.
Qed.

Lemma apply_hits_set_messages damage ks msgs g :
  apply_hits damage ks (set_messages msgs g)
  = set_messages msgs (apply_hits damage ks g).
Proof.
  revert g. induction ks as [|k ks IH]; intros g; [reflexivity|].
  rewrite !apply_hits_cons, <- IH. reflexivity.
Qed.

(** [prefix +:+ suffix <> text] for closed [suffix] and [text]: peel the
    characters of [text] off until the two sides differ. *)
Ltac string_peel :=
  let name := fresh "name" in
  let H := fresh "H" in
  intros [|? name] H;
  [ discriminate H
  | simpl in H;
    first [ discriminate H
          | injection H as _ H; revert name H; string_peel ] ].

(** The cast announcements are not the nothing-was-hit message. *)
Lemma casts_lightening_text name :
  name +:+ " casts lightening" <> "Nothing was hit, what a waste.".
Proof. revert name. string_peel. Qed.

Lemma casts_fireball_text name :
  name +:+ " casts fireball" <> "Nothing was hit, what a waste.".
Proof. revert name. string_peel. Qed.

Lemma emitted_text_nothing_was_hit g g1 (announce : string * Color) (ks : list nat) :
  announce.1 <> nothing_was_hit.1 ->
  emitted_text g
    (set_messages
       (message_history g
          ++ announce :: (if bool_decide (ks = []) then [nothing_was_hit] else []))
       g1) nothing_was_hit.1
  <-> ks = [].
Proof.
  intros Hne. unfold emitted_text. rewrite messages_emitted_app.
  destruct (decide (ks = [])) as [Hks|Hks].
  - rewrite bool_decide_true by exact Hks. split; [auto|]. intros _.
    exists COLOR_WHITE. right. left.
  - rewrite bool_decide_false by exact Hks. split; [|contradiction].
    intros [color Hin]. apply list_elem_of_singleton in Hin.
    destruct Hne. rewrite <- Hin. reflexivity.
Qed.

(** ** The spells *)

Section SpellFacts.

Context (menu_tile_select : TileSelectArgs -> Game -> option Coords)
        (tiles_in_line : Coords -> Coords -> list Coords)
        (tiles_in_radius : Coords -> Z -> list Coords).

(** A lightning cast that the aim-away guard does not stop. *)
Lemma cast_lightening_run caster c damage max_r selected g :
  current_objects g !! caster = Some c ->
  menu_tile_select (lightening_select (x c, y c) max_r) g = Some selected ->
  (forall t, tiles_in_line (x c, y c) selected = [t] ->
             creature_at_coords t.1 t.2 g = None) ->
  cast_lightening menu_tile_select tiles_in_line caster (damage, max_r) g
  = let ks := hits g (tail (tiles_in_line (x c, y c) selected)) in
    let g1 := apply_hits damage ks g in
    match creature c with
    | None => (Raises AttributeError, g1)
    | Some cc =>
        (Returns true,
         set_messages
           (message_history g
              ++ casts_lightening cc
                 :: (if bool_decide (ks = []) then [nothing_was_hit] else []))
           g1)
    end.
Proof.
  intros Hc Hsel Hguard. unfold cast_lightening. py_unfold.
  rewrite Hc; cbn. rewrite Hsel.
  set (line := tiles_in_line (x c, y c) selected) in Hguard |- *.
  assert (Hloop :
    lightening_loop damage (length line) 0 line false g
    = (Returns (inr (bool_decide (hits g (tail line) <> []))),
       apply_hits damage (hits g (tail line)) g)).
  { destruct line as [|t [|t' rest]] eqn:Hline.
    - reflexivity.
    - rewrite lightening_loop_single, (Hguard t eq_refl). reflexivity.
    - rewrite lightening_loop_first by (simpl; lia).
      rewrite lightening_loop_run by (simpl; lia). reflexivity. }
  rewrite Hloop; cbn.
  set (ks := hits g (tail line)). set (g1 := apply_hits damage ks g).
  destruct (apply_hits_lookup_frame damage ks g caster c Hc)
    as (c1 & Hc1 & _ & _ & _ & _ & Hname & _).
  fold g1 in Hc1. rewrite Hc1; cbn.
  destruct (creature c) as [cc|], (creature c1) as [cc1|]; try discriminate; cbn;
    [|reflexivity].
  injection Hname as Hname.
  unfold casts_lightening, nothing_was_hit, set_messages. rewrite Hname.
  pose proof (apply_hits_messages damage ks g) as Hm. fold g1 in Hm.
  destruct (decide (ks = [])) as [Hks|Hks].
  - rewrite bool_decide_false by (intros Hn; exact (Hn Hks)). rewrite bool_decide_true by exact Hks.
    cbn. rewrite Hm, <- app_assoc. reflexivity.
  - rewrite bool_decide_true by exact Hks. rewrite bool_decide_false by exact Hks.
    cbn. rewrite Hm. reflexivity.
Qed.

Lemma cast_fireball_run caster c cc damage spell_range spell_radius selected g :
  current_objects g !! caster = Some c -> creature c = Some cc ->
  menu_tile_select (fireball_select (x c, y c) spell_range spell_radius) g
    = Some selected ->
  cast_fireball menu_tile_select tiles_in_radius caster
    (damage, spell_range, spell_radius) g
  = let ks := hits g (tiles_in_radius selected spell_radius) in
    (Returns true,
     set_messages
       (message_history g
          ++ casts_fireball cc
             :: (if bool_decide (ks = []) then [nothing_was_hit] else []))
       (apply_hits damage ks g)).
Proof.
  intros Hc Hcc Hsel. unfold cast_fireball. py_unfold.
  rewrite Hc; cbn. rewrite Hsel, Hcc; cbn.
  rewrite fireball_loop_run; cbn.
  change (hits (set_messages _ g)) with (hits g).
  set (ks := hits g (tiles_in_radius selected spell_radius)).
  rewrite apply_hits_set_messages.
  unfold casts_fireball, nothing_was_hit, set_messages; cbn.
  destruct (decide (ks = [])) as [Hnil|Hnil].
  - rewrite bool_decide_false by (intros Hn; exact (Hn Hnil)). rewrite bool_decide_true by exact Hnil.
    cbn. rewrite <- app_assoc. reflexivity.
  - rewrite bool_decide_true by exact Hnil. rewrite bool_decide_false by exact Hnil.
    reflexivity.
Qed.

Lemma damage_done_apply_hits damage ks msgs g :
  damage_done g (set_messages msgs (apply_hits damage ks g))
  = (fun k => (k, damage)) <$> ks.
Proof.
  unfold damage_done; cbn. rewrite apply_hits_damage_log.
  apply drop_app_length.
Qed.

(** C1: in a cast of [cast_lightening] with a tile selected and a line of
    more than one tile (pairwise distinct tiles), every creature found on
    a tile of the line other than the first has [take_damage] applied
    exactly once, with the spell's damage; the creature found on the
    first tile and the actors found on no later tile are left as they
    were; and the cast returns [True] when the caster is a creature. *)
Theorem cast_lightening_damages_line caster c damage max_r selected g :
  current_objects g !! caster = Some c ->
  menu_tile_select (lightening_select (x c, y c) max_r) g = Some selected ->
  let line := tiles_in_line (x c, y c) selected in
  let run := cast_lightening menu_tile_select tiles_in_line caster
               (damage, max_r) g in
  (1 < length line)%nat ->
  NoDup line ->
  (is_Some (creature c) -> run.1 = Returns true) /\
  (forall t k a,
      t ∈ tail line -> creature_at_coords t.1 t.2 g = Some k ->
      current_objects g !! k = Some a ->
      current_objects run.2 !! k = Some (damaged damage a) /\
      filter (fun e : nat * Z => e.1 = k) (damage_done g run.2) = [(k, damage)]) /\
  (forall t k,
      head line = Some t -> creature_at_coords t.1 t.2 g = Some k ->
      current_objects run.2 !! k = current_objects g !! k /\
      filter (fun e : nat * Z => e.1 = k) (damage_done g run.2) = []) /\
  (forall k,
      (forall t, t ∈ tail line -> creature_at_coords t.1 t.2 g <> Some k) ->
      current_objects run.2 !! k = current_objects g !! k).
Proof.
  intros Hc Hsel line run Hlen Hnd.
  assert (Hrun : run =
    let ks := hits g (tail line) in
    let g1 := apply_hits damage ks g in
    match creature c with
    | None => (Raises AttributeError, g1)
    | Some cc =>
        (Returns true,
         set_messages
           (message_history g
              ++ casts_lightening cc
                 :: (if bool_decide (ks = []) then [nothing_was_hit] else []))
           g1)
    end).
  { apply cast_lightening_run; [exact Hc|exact Hsel|].
    intros t Ht. fold line in Ht. rewrite Ht in Hlen. simpl in Hlen. lia. }
  cbn zeta in Hrun. set (ks := hits g (tail line)) in Hrun |- *.
  assert (Hks : NoDup ks).
  { apply NoDup_hits. destruct line; [constructor|]. simpl.
    apply NoDup_cons in Hnd as [_ Hnd]. exact Hnd. }
  assert (Hobjs : current_objects run.2 = current_objects (apply_hits damage ks g)).
  { rewrite Hrun. destruct (creature c); reflexivity. }
  assert (Hlog : damage_done g run.2 = (fun k => (k, damage)) <$> ks).
  { rewrite Hrun. destruct (creature c).
    - apply damage_done_apply_hits.
    - unfold damage_done; cbn. rewrite apply_hits_damage_log.
      apply drop_app_length. }
  rewrite Hobjs, Hlog. split; [|split; [|split]].
  - intros [cc Hcc]. rewrite Hrun, Hcc. reflexivity.
  - intros t k a Ht Hk Ha.
    assert (k ∈ ks) as Hin by (apply elem_of_hits; eauto).
    rewrite apply_hits_lookup_once, filter_hits_log by assumption.
    rewrite Ha, bool_decide_true by assumption. split; reflexivity.
  - intros t k Ht Hk.
    assert (k ∉ ks) as Hout.
    { intros (t' & Ht' & Hk')%elem_of_hits.
      assert (t = t') as <- by (eapply creature_at_coords_inj; eauto).
      destruct line as [|t0 rest]; [discriminate|]. simpl in Ht, Ht'.
      injection Ht as ->. apply NoDup_cons in Hnd as [Hnotin _]. contradiction. }
    rewrite apply_hits_lookup_other, filter_hits_log by assumption.
    rewrite bool_decide_false by assumption. split; reflexivity.
  - intros k Hk. apply apply_hits_lookup_other.
    intros (t' & Ht' & Hk')%elem_of_hits. exact (Hk t' Ht' Hk').
Qed.

(** C3: in a cast of [cast_fireball] with a tile selected, every creature
    found on a tile of [tiles_in_radius(selected_tile, spell_radius)]
    (pairwise distinct tiles) has [take_damage] applied exactly once,
    with the spell's damage, and no tile is skipped: the creature on the
    caster's own tile is damaged too when that tile is in the radius.
    Actors found on none of the tiles are left as they were. *)
Theorem cast_fireball_damages_radius caster c cc damage spell_range
    spell_radius selected g :
  current_objects g !! caster = Some c ->
  creature c = Some cc ->
  menu_tile_select (fireball_select (x c, y c) spell_range spell_radius) g
    = Some selected ->
  let tiles := tiles_in_radius selected spell_radius in
  let run := cast_fireball menu_tile_select tiles_in_radius caster
               (damage, spell_range, spell_radius) g in
  NoDup tiles ->
  run.1 = Returns true /\
  (forall t k a,
      t ∈ tiles -> creature_at_coords t.1 t.2 g = Some k ->
      current_objects g !! k = Some a ->
      current_objects run.2 !! k = Some (damaged damage a) /\
      filter (fun e : nat * Z => e.1 = k) (damage_done g run.2) = [(k, damage)]) /\
  ((x c, y c) ∈ tiles -> creature_at_coords (x c) (y c) g = Some caster ->
      current_objects run.2 !! caster = Some (damaged damage c)) /\
  (forall k,
      (forall t, t ∈ tiles -> creature_at_coords t.1 t.2 g <> Some k) ->
      current_objects run.2 !! k = current_objects g !! k).
Proof.
  intros Hc Hcc Hsel tiles run Hnd.
  pose proof (cast_fireball_run caster c cc damage spell_range spell_radius
                selected g Hc Hcc Hsel) as Hrun.
  fold run tiles in Hrun. cbn zeta in Hrun. set (ks := hits g tiles) in Hrun |- *.
  assert (Hks : NoDup ks) by (apply NoDup_hits; exact Hnd).
  assert (Hhit : forall t k a,
      t ∈ tiles -> creature_at_coords t.1 t.2 g = Some k ->
      current_objects g !! k = Some a ->
      current_objects run.2 !! k = Some (damaged damage a) /\
      filter (fun e : nat * Z => e.1 = k) (damage_done g run.2) = [(k, damage)]).
  { intros t k a Ht Hk Ha. rewrite Hrun. cbn [snd].
    assert (k ∈ ks) as Hin by (apply elem_of_hits; eauto).
    rewrite damage_done_apply_hits, filter_hits_log by assumption.
    rewrite (bool_decide_true (k ∈ ks)) by assumption. split; [|reflexivity].
    cbn. rewrite apply_hits_lookup_once by assumption.
    rewrite Ha. reflexivity. }
  split; [rewrite Hrun; reflexivity|]. split; [exact Hhit|]. split.
  - intros Hin Hk. exact (proj1 (Hhit (x c, y c) caster c Hin Hk Hc)).
  - intros k Hk. rewrite Hrun. cbn. apply apply_hits_lookup_other.
    intros (t' & Ht' & Hk')%elem_of_hits. exact (Hk t' Ht' Hk').
Qed.

(** C9: when the tile selection yields no tile, each of the three spells
    returns [False] and leaves the whole game state as it was: no
    creature, no ai component and no message is touched. *)
Theorem cast_cancelled_unchanged caster c g :
  current_objects g !! caster = Some c ->
  (forall damage max_r,
      menu_tile_select (lightening_select (x c, y c) max_r) g = None ->
      cast_lightening menu_tile_select tiles_in_line caster (damage, max_r) g
      = (Returns false, g)) /\
  (forall damage spell_range spell_radius,
      menu_tile_select (fireball_select (x c, y c) spell_range spell_radius) g
        = None ->
      cast_fireball menu_tile_select tiles_in_radius caster
        (damage, spell_range, spell_radius) g
      = (Returns false, g)) /\
  (forall effect_length,
      menu_tile_select confusion_select g = None ->
      cast_confusion menu_tile_select caster effect_length g
      = (Returns false, g)).
Proof.
  intros Hc. split; [|split].
  - intros damage max_r Hsel. unfold cast_lightening. py_unfold.
    rewrite Hc; cbn. rewrite Hsel. reflexivity.
  - intros damage spell_range spell_radius Hsel. unfold cast_fireball. py_unfold.
    rewrite Hc; cbn. rewrite Hsel. reflexivity.
  - intros effect_length Hsel. unfold cast_confusion. py_unfold.
    cbn. rewrite Hsel. reflexivity.
Qed.

(** C10: when the line to the selected tile is exactly one tile and a
    creature stands on it, [cast_lightening] returns [False], damages no
    creature, and emits the aim-away warning and nothing else. *)
Theorem cast_lightening_self_target caster c damage max_r selected t k g :
  current_objects g !! caster = Some c ->
  menu_tile_select (lightening_select (x c, y c) max_r) g = Some selected ->
  tiles_in_line (x c, y c) selected = [t] ->
  creature_at_coords t.1 t.2 g = Some k ->
  let run := cast_lightening menu_tile_select tiles_in_line caster
               (damage, max_r) g in
  run = (Returns false, set_messages (message_history g ++ [aim_away]) g) /\
  current_objects run.2 = current_objects g /\
  damage_done g run.2 = [] /\
  messages_emitted g run.2 = [aim_away].
Proof.
  intros Hc Hsel Hline Hk run.
  assert (Hrun : run
    = (Returns false, set_messages (message_history g ++ [aim_away]) g)).
  { unfold run, cast_lightening. py_unfold. rewrite Hc; cbn.
    rewrite Hsel, Hline. cbn [length].
    rewrite lightening_loop_single, Hk. reflexivity. }
  rewrite Hrun. split; [reflexivity|]. split; [reflexivity|]. split.
  - unfold damage_done; cbn. apply drop_all.
  - apply messages_emitted_app.
Qed.

(** C4, amended: for a cast of [cast_fireball] with a tile selected, and
    for a cast of [cast_lightening] with a tile selected that the
    aim-away guard does not stop, the message "Nothing was hit, what a
    waste." is emitted if and only if the cast made no [take_damage]
    call. *)
Theorem nothing_was_hit_iff_no_damage caster c cc g :
  current_objects g !! caster = Some c ->
  creature c = Some cc ->
  (forall damage max_r selected,
      menu_tile_select (lightening_select (x c, y c) max_r) g = Some selected ->
      (forall t, tiles_in_line (x c, y c) selected = [t] ->
                 creature_at_coords t.1 t.2 g = None) ->
      let run := cast_lightening menu_tile_select tiles_in_line caster
                   (damage, max_r) g in
      emitted_text g run.2 "Nothing was hit, what a waste."
      <-> damage_done g run.2 = []) /\
  (forall damage spell_range spell_radius selected,
      menu_tile_select (fireball_select (x c, y c) spell_range spell_radius) g
        = Some selected ->
      let run := cast_fireball menu_tile_select tiles_in_radius caster
                   (damage, spell_range, spell_radius) g in
      emitted_text g run.2 "Nothing was hit, what a waste."
      <-> damage_done g run.2 = []).
Proof.
  intros Hc Hcc. split.
  - intros damage max_r selected Hsel Hguard run. unfold run.
    rewrite (cast_lightening_run caster c damage max_r selected g Hc Hsel Hguard).
    cbn zeta. rewrite Hcc. cbn [snd].
    rewrite damage_done_apply_hits.
    rewrite (emitted_text_nothing_was_hit g _ (casts_lightening cc))
      by apply casts_lightening_text.
    split; [intros ->; reflexivity | apply fmap_nil_inv].
  - intros damage spell_range spell_radius selected Hsel run. unfold run.
    rewrite (cast_fireball_run caster c cc damage spell_range spell_radius
               selected g Hc Hcc Hsel).
    cbn zeta. cbn [snd]. rewrite damage_done_apply_hits.
    rewrite (emitted_text_nothing_was_hit g _ (casts_fireball cc))
      by apply casts_fireball_text.
    split; [intros ->; reflexivity | apply fmap_nil_inv].
Qed.

End SpellFacts.

(** ** The spells on the small level *)

Ltac decide_by_computation := apply (bool_decide_unpack _); vm_compute; exact I.

Lemma cast_lightening_damages_line_witness :
  (1 < length (Map.tiles_in_line (0, 0)%Z (3, 0)%Z))%nat /\
  NoDup (Map.tiles_in_line (0, 0) (3, 0)) /\
  current_objects
    (cast_lightening (pick (Some (3, 0))) Map.tiles_in_line 0 (3, 5) level).2
    !! 1%nat = Some (damaged 3 rat) /\
  filter (fun e : nat * Z => e.1 = 1%nat)
    (damage_done level
       (cast_lightening (pick (Some (3, 0))) Map.tiles_in_line 0 (3, 5) level).2)
  = [(1%nat, 3)].
Proof.
  assert (Hlen : (1 < length (Map.tiles_in_line (x hero, y hero) (3, 0)%Z))%nat)
    by (vm_compute; lia).
  assert (Hnd : NoDup (Map.tiles_in_line (x hero, y hero) (3, 0)))
    by decide_by_computation.
  split; [exact Hlen|]. split; [exact Hnd|].
  refine (proj1 (proj2
    (cast_lightening_damages_line (pick (Some (3, 0))) Map.tiles_in_line
       0%nat hero 3 5 (3, 0) level eq_refl eq_refl Hlen Hnd)) (2, 0) 1%nat rat _ _ _).
  - decide_by_computation.
  - reflexivity.
  - reflexivity.
Defined.

Lemma cast_fireball_damages_radius_witness :
  NoDup (Map.tiles_in_radius (1, 0) 1) /\
  (cast_fireball (pick (Some (1, 0))) Map.tiles_in_radius 0 (3, 5, 1) level).1
  = Returns true /\
  current_objects
    (cast_fireball (pick (Some (1, 0))) Map.tiles_in_radius 0 (3, 5, 1) level).2
    !! 0%nat = Some (damaged 3 hero).
Proof.
  assert (Hnd : NoDup (Map.tiles_in_radius (1, 0) 1)) by decide_by_computation.
  split; [exact Hnd|].
  pose proof (cast_fireball_damages_radius (pick (Some (1, 0)))
    Map.tiles_in_radius 0%nat hero (mkCreature "Hero" 12 20) 3 5 1 (1, 0) level
    eq_refl eq_refl eq_refl Hnd) as (Hret & _ & Hown & _).
  split; [exact Hret|].
  apply Hown; [decide_by_computation | reflexivity].
Defined.

Lemma cast_cancelled_unchanged_witness :
  cast_lightening (pick None) Map.tiles_in_line 0 (3, 5) level
    = (Returns false, level) /\
  cast_fireball (pick None) Map.tiles_in_radius 0 (3, 5, 1) level
    = (Returns false, level) /\
  cast_confusion (pick None) 0 4 level = (Returns false, level).
Proof.
  pose proof (cast_cancelled_unchanged (pick None) Map.tiles_in_line
    Map.tiles_in_radius 0%nat hero level eq_refl) as (Hl & Hf & Hc).
  split; [exact (Hl 3 5 eq_refl)|].
  split; [exact (Hf 3 5 1 eq_refl) | exact (Hc 4 eq_refl)].
Defined.

Lemma cast_lightening_self_target_witness :
  cast_lightening (pick (Some (0, 0))) Map.tiles_in_line 0 (3, 5) level
  = (Returns false, set_messages (message_history level ++ [aim_away]) level).
Proof.
  exact (proj1 (cast_lightening_self_target (pick (Some (0, 0)))
    Map.tiles_in_line 0%nat hero 3 5 (0, 0) (0, 0) 0%nat level
    eq_refl eq_refl eq_refl eq_refl)).
Defined.

Lemma nothing_was_hit_iff_no_damage_witness :
  emitted_text level
    (cast_lightening (pick (Some (1, 1))) Map.tiles_in_line 0 (3, 5) level).2
    "Nothing was hit, what a waste."
  <-> damage_done level
        (cast_lightening (pick (Some (1, 1))) Map.tiles_in_line 0 (3, 5) level).2
      = [].
Proof.
  refine (proj1 (nothing_was_hit_iff_no_damage (pick (Some (1, 1)))
    Map.tiles_in_line Map.tiles_in_radius 0%nat hero (mkCreature "Hero" 12 20)
    level eq_refl eq_refl) 3 5 (1, 1) eq_refl _).
  intros t Ht. vm_compute in Ht. discriminate Ht.
Defined.

(** Without the restriction to casts that pass the guard the equivalence
    fails: the hero aims at their own tile; a tile was selected and no
    creature was damaged, yet the nothing-was-hit message is not emitted
    (the aim-away warning is). *)
Lemma nothing_was_hit_self_target_counterexample :
  pick (Some (0, 0)) (lightening_select (x hero, y hero) 5) level = Some (0, 0) /\
  ~ (emitted_text level
       (cast_lightening (pick (Some (0, 0))) Map.tiles_in_line 0 (3, 5) level).2
       "Nothing was hit, what a waste."
     <-> damage_done level
           (cast_lightening (pick (Some (0, 0))) Map.tiles_in_line 0 (3, 5) level).2
         = []).
Proof.
  split; [reflexivity|]. intros [_ Hback].
  destruct (Hback eq_refl) as [color Hin].
  vm_compute in Hin. apply list_elem_of_singleton in Hin. discriminate Hin.
Qed.

(** ** The line of tiles *)

Lemma line_error_bounds A B k m :
  0 < A -> 0 <= B <= A -> 0 <= k <= A ->
  0 <= A - 2 * k * B + 2 * m * A < 2 * A ->
  0 <= m <= k /\ 0 <= B - m <= A - k.
Proof.
  intros HA HB Hk He.
  assert (0 <= m) by nia.
  assert (m <= k) by nia.
  assert (0 <= B - m) by nia.
  assert (B - m <= A - k) by nia.
  lia.
Qed.

Lemma line_steps_length n p e a2 b2 major minor :
  length (Map.line_steps n p e a2 b2 major minor) = n.
Proof.
  revert p e. induction n as [|n IH]; intros p e; simpl; [reflexivity|].
  rewrite IH. reflexivity.
Qed.

(** The walk after [i] steps, [m] of them diagonal, stands on
    [c + i * major + m * minor] with error [A - 2 i B + 2 m A]; every tile
    it goes on to produce has the same form. *)
Lemma line_steps_lookup A B major minor c n :
  0 < A -> 0 <= B <= A ->
  forall i m e p j q,
    p = (c.1 + i * major.1 + m * minor.1, c.2 + i * major.2 + m * minor.2) ->
    e = A - 2 * i * B + 2 * m * A -> 0 <= e < 2 * A ->
    Map.line_steps n p e (2 * A) (2 * B) major minor !! j = Some q ->
    exists m',
      q = (c.1 + (i + Z.of_nat j + 1) * major.1 + m' * minor.1,
           c.2 + (i + Z.of_nat j + 1) * major.2 + m' * minor.2) /\
      0 <= A - 2 * (i + Z.of_nat j + 1) * B + 2 * m' * A < 2 * A.
Proof.
  intros HA HB. induction n as [|n IH]; intros i m e p j q -> He Hbound;
    [discriminate|].
  simpl Map.line_steps. unfold Map.tile_add; simpl fst; simpl snd.
  assert (Hstep : forall m1 p e1,
    p = (c.1 + (i + 1) * major.1 + m1 * minor.1,
         c.2 + (i + 1) * major.2 + m1 * minor.2) ->
    e1 = A - 2 * (i + 1) * B + 2 * m1 * A -> 0 <= e1 < 2 * A ->
    (p :: Map.line_steps n p e1 (2 * A) (2 * B) major minor) !! j = Some q ->
    exists m',
      q = (c.1 + (i + Z.of_nat j + 1) * major.1 + m' * minor.1,
           c.2 + (i + Z.of_nat j + 1) * major.2 + m' * minor.2) /\
      0 <= A - 2 * (i + Z.of_nat j + 1) * B + 2 * m' * A < 2 * A).
  { intros m1 p e1 Hp He1 Hb1. destruct j as [|j].
    - intros [= <-]. exists m1. split; [rewrite Hp; f_equal; lia|]. lia.
    - intros Hq. change ((?p :: ?l) !! S j) with (l !! j) in Hq.
      destruct (IH (i + 1) m1 e1 p j q Hp He1 Hb1 Hq) as (m' & -> & Hm').
      exists m'. split; [f_equal; lia|]. lia. }
  destruct (Z.ltb_spec (e - 2 * B) 0) as [Hlt|Hge].
  - apply (Hstep (m + 1)); [f_equal; lia | lia | lia].
  - apply (Hstep m); [f_equal; lia | lia | lia].
Qed.

(** The tile at index [k] of a walk of [A] steps from [c]: [k] steps along
    the major axis and [m] along the minor axis, [m] keeping pace with the
    slope [B / A]. *)
Lemma line_walk_point c A B major minor k p :
  0 <= A -> 0 <= B <= A ->
  (c :: Map.line_steps (Z.to_nat A) c A (2 * A) (2 * B) major minor) !! k = Some p ->
  exists m,
    p = (c.1 + Z.of_nat k * major.1 + m * minor.1,
         c.2 + Z.of_nat k * major.2 + m * minor.2) /\
    Z.of_nat k <= A /\ 0 <= m <= Z.of_nat k /\ 0 <= B - m <= A - Z.of_nat k.
Proof.
  intros HA HB. destruct k as [|j].
  - intros [= <-]. exists 0. split; [destruct c; simpl; f_equal; lia|]. lia.
  - intros Hq. change ((?p :: ?l) !! S j) with (l !! j) in Hq.
    pose proof (lookup_lt_Some _ _ _ Hq) as Hj. rewrite line_steps_length in Hj.
    assert (0 < A) as HA' by lia.
    destruct (line_steps_lookup A B major minor c (Z.to_nat A) HA' HB
                0 0 A c j p) as (m & -> & Hm); [destruct c; simpl; f_equal; lia|lia|lia|exact Hq|].
    exists m. split; [f_equal; lia|].
    destruct (line_error_bounds A B (Z.of_nat j + 1) m HA' HB) as [? ?]; lia.
Qed.

Lemma tiles_in_line_length c t :
  length (Map.tiles_in_line c t) = S (Z.to_nat (Map.tile_dist c t)).
Proof.
  unfold Map.tiles_in_line, Map.tile_dist.
  destruct (Z.ltb_spec (Z.abs (t.2 - c.2)) (Z.abs (t.1 - c.1)));
    simpl; rewrite line_steps_length; f_equal; lia.
Qed.

(** The tile at index [k] of the line is [k] steps away from the caster
    and [k] steps closer to the target than the caster is. *)
Lemma tiles_in_line_point c t k p :
  Map.tiles_in_line c t !! k = Some p ->
  Map.tile_dist c p = Z.of_nat k /\
  Map.tile_dist p t = Map.tile_dist c t - Z.of_nat k.
Proof.
  unfold Map.tiles_in_line, Map.tile_dist.
  destruct (Z.ltb_spec (Z.abs (t.2 - c.2)) (Z.abs (t.1 - c.1))) as [Hlt|Hge];
    intros Hp; apply line_walk_point in Hp as (m & -> & Hk & Hm & Hrest);
    try lia; simpl fst; simpl snd.
  - destruct (Z.sgn_spec (t.1 - c.1)) as [[? ->]|[[? ->]|[? ->]]];
      destruct (Z.sgn_spec (t.2 - c.2)) as [[? ->]|[[? ->]|[? ->]]]; lia.
  - destruct (Z.sgn_spec (t.1 - c.1)) as [[? ->]|[[? ->]|[? ->]]];
      destruct (Z.sgn_spec (t.2 - c.2)) as [[? ->]|[[? ->]|[? ->]]]; lia.
Qed.

Lemma tiles_in_line_NoDup c t : NoDup (Map.tiles_in_line c t).
Proof.
  apply NoDup_alt. intros i j p Hi Hj.
  apply tiles_in_line_point in Hi as [Hi _].
  apply tiles_in_line_point in Hj as [Hj _]. lia.
Qed.

(** Aiming at any tile but the caster's own gives a line of more than one
    tile. *)
Lemma tiles_in_line_more_than_one c t :
  c <> t -> (1 < length (Map.tiles_in_line c t))%nat.
Proof.
  intros Hne. rewrite tiles_in_line_length.
  assert (0 < Map.tile_dist c t); [|lia].
  unfold Map.tile_dist. destruct c as [cx cy], t as [tx ty]; simpl.
  destruct (decide (cx = tx)) as [->|?]; [|lia].
  destruct (decide (cy = ty)) as [->|?]; [congruence|lia].
Qed.

(** The square of tiles around a target: which tiles it holds, each once. *)
Lemma elem_of_tiles_in_radius t r p :
  p ∈ Map.tiles_in_radius t r <-> 0 <= r /\ Map.tile_dist t p <= r.
Proof.
  unfold Map.tiles_in_radius, Map.tile_dist. rewrite list_elem_of_bind. split.
  - intros (tx & (ty & Hp & Hy%elem_of_seqZ)%list_elem_of_bind & Hx%elem_of_seqZ).
    apply list_elem_of_singleton in Hp as ->. simpl. lia.
  - intros [Hr Hd]. exists p.1. split.
    + apply list_elem_of_bind. exists p.2. split.
      * destruct p. simpl. apply list_elem_of_singleton. reflexivity.
      * apply elem_of_seqZ. lia.
    + apply elem_of_seqZ. lia.
Qed.

Lemma tiles_in_radius_NoDup t r : NoDup (Map.tiles_in_radius t r).
Proof.
  unfold Map.tiles_in_radius. apply NoDup_bind; [| |apply NoDup_seqZ].
  - intros x1 x2 p _ _ (y1 & ->%list_elem_of_singleton & _)%list_elem_of_bind
      (y2 & [= -> _]%list_elem_of_singleton & _)%list_elem_of_bind. reflexivity.
  - intros tx _. apply NoDup_bind; [| |apply NoDup_seqZ].
    + intros y1 y2 p _ _ ->%list_elem_of_singleton [= ->]%list_elem_of_singleton.
      reflexivity.
    + intros ty _. apply NoDup_singleton.
Qed.

(** C2: for every caster position and target tile, [tiles_in_line] is the
    sequence of tiles from the caster to the target: it starts on the
    caster's own tile, ends on the target tile, and its tile at index [k]
    lies [k] steps from the caster and [k] steps nearer the target, so the
    tiles are pairwise distinct and in walking order. *)
Theorem tiles_in_line_caster_first_target_last (c t : Coords) :
  head (Map.tiles_in_line c t) = Some c /\
  last (Map.tiles_in_line c t) = Some t /\
  length (Map.tiles_in_line c t) = S (Z.to_nat (Map.tile_dist c t)) /\
  (forall k p,
      Map.tiles_in_line c t !! k = Some p ->
      Map.tile_dist c p = Z.of_nat k /\
      Map.tile_dist p t = Map.tile_dist c t - Z.of_nat k) /\
  NoDup (Map.tiles_in_line c t).
Proof.
  split; [|split; [|split; [|split]]].
  - unfold Map.tiles_in_line. destruct (_ <? _); reflexivity.
  - rewrite last_lookup, tiles_in_line_length. simpl.
    destruct (Map.tiles_in_line c t !! Z.to_nat (Map.tile_dist c t)) as [p|] eqn:Hp.
    + apply tiles_in_line_point in Hp as [_ Hp].
      f_equal. unfold Map.tile_dist in Hp. destruct p, t; simpl in *.
      f_equal; lia.
    + apply lookup_ge_None in Hp. rewrite tiles_in_line_length in Hp. lia.
  - apply tiles_in_line_length.
  - apply tiles_in_line_point.
  - apply tiles_in_line_NoDup.
Qed.

(** ** Damage and healing *)

Lemma take_damage_hp damage c :
  current_hp (take_damage damage c) = Z.max 0 (current_hp c - damage).
Proof.
  unfold take_damage; simpl.
  destruct (Z.ltb_spec (current_hp c - damage) 0); lia.
Qed.

(** C6: [take_damage(damage)] on a creature sets its current health to
    [max(0, current_hp - damage)] and changes nothing else: the creature's
    name and max health, the actor's other fields and every other actor
    stay as they were. *)
Theorem take_damage_clamped_at_zero g target a c damage :
  current_objects g !! target = Some a ->
  creature a = Some c ->
  exists g',
    creature_take_damage target damage g = (Returns tt, g') /\
    current_objects g' !! target
    = Some (actor_set_creature
              (Some (creature_set_hp (Z.max 0 (current_hp c - damage)) c)) a) /\
    (forall j, j <> target -> current_objects g' !! j = current_objects g !! j) /\
    message_history g' = message_history g.
Proof.
  intros Ha Hc. exists (damage_actor damage target g).
  split; [exact (creature_take_damage_run g target a c damage Ha Hc)|].
  unfold damage_actor; simpl. split; [|split; [|reflexivity]].
  - rewrite list_lookup_alter_eq, Ha. simpl. unfold damaged. rewrite Hc. simpl.
    do 3 f_equal. rewrite <- take_damage_hp. reflexivity.
  - intros j Hj. apply list_lookup_alter_ne. congruence.
Qed.

Lemma take_damage_clamped_at_zero_witness :
  exists g',
    creature_take_damage 2 3 level = (Returns tt, g') /\
    current_objects g' !! 2%nat
    = Some (actor_set_creature (Some (mkCreature "bat" 0 4)) bat).
Proof.
  destruct (take_damage_clamped_at_zero level 2%nat bat (mkCreature "bat" 2 4) 3
              eq_refl eq_refl) as (g' & Hrun & Hbat & _).
  exists g'. split; [exact Hrun | exact Hbat].
Defined.

Lemma heal_capped_within_max value c :
  current_hp c <= max_hp c ->
  current_hp (heal_capped value c) <= max_hp (heal_capped value c).
Proof.
  intros Hle. unfold heal_capped; simpl.
  destruct (Z.ltb_spec (max_hp c) (current_hp c + value)); lia.
Qed.

Section HealFacts.

Context (heal : Z -> ComCreature -> ComCreature).

(** C7: [cast_heal] preserves [current_hp <= max_hp] on its target: at
    full health it returns [False], emits the already-at-full-health
    message and changes no actor; below full health it heals and returns
    [True], and the target's current health still does not exceed its
    max health. *)
Theorem cast_heal_keeps_hp_within_max target a c value g :
  heal_within_max heal ->
  current_objects g !! target = Some a ->
  creature a = Some c ->
  current_hp c <= max_hp c ->
  let run := cast_heal heal target value g in
  (current_hp c = max_hp c ->
     run = (Returns false,
            set_messages
              (message_history g
                 ++ [(personal_name c +:+ " is already at full health!",
                      COLOR_BLUE)]) g)) /\
  (current_hp c < max_hp c ->
     run = (Returns true,
            set_objects
              (alter (actor_set_creature (Some (heal value c))) target
                 (current_objects g)) g)) /\
  (exists a' c',
     current_objects run.2 !! target = Some a' /\ creature a' = Some c' /\
     current_hp c' <= max_hp c').
Proof.
  intros Hheal Ha Hc Hle run.
  assert (Hrun : run =
    if current_hp c <? max_hp c then
      (Returns true,
       set_objects
         (alter (actor_set_creature (Some (heal value c))) target
            (current_objects g)) g)
    else
      (Returns false,
       set_messages
         (message_history g
            ++ [(personal_name c +:+ " is already at full health!",
                 COLOR_BLUE)]) g)).
  { unfold run, cast_heal. py_unfold. rewrite Ha; cbn. rewrite Hc; cbn.
    destruct (current_hp c <? max_hp c); reflexivity. }
  rewrite Hrun. destruct (Z.ltb_spec (current_hp c) (max_hp c)) as [Hlt|Hge].
  - split; [lia|]. split; [reflexivity|].
    exists (actor_set_creature (Some (heal value c)) a), (heal value c).
    simpl. rewrite list_lookup_alter_eq, Ha.
    split; [reflexivity|]. split; [reflexivity|]. apply Hheal. exact Hle.
  - split; [reflexivity|]. split; [lia|].
    exists a, c. simpl. auto.
Qed.

End HealFacts.

Lemma cast_heal_keeps_hp_within_max_witness :
  cast_heal heal_capped 0 15 level
  = (Returns true,
     set_objects
       (alter (actor_set_creature (Some (heal_capped 15 (mkCreature "Hero" 12 20))))
          0%nat (current_objects level)) level) /\
  cast_heal heal_capped 1 15 level
  = (Returns false,
     set_messages [("rat is already at full health!", COLOR_BLUE)] level).
Proof.
  split.
  - refine (proj1 (proj2 (cast_heal_keeps_hp_within_max heal_capped 0%nat hero
      (mkCreature "Hero" 12 20) 15 level heal_capped_within_max
      eq_refl eq_refl _)) _); simpl; lia.
  - refine (proj1 (cast_heal_keeps_hp_within_max heal_capped 1%nat rat
      (mkCreature "rat" 5 5) 15 level heal_capped_within_max
      eq_refl eq_refl _) _); simpl; lia.
Defined.

(** ** Confusion *)

Lemma take_turn_confused g k a orig n r :
  current_objects g !! k = Some a ->
  ai a = Some (AiConfuse orig n (Some k)) ->
  0 < n ->
  exists g',
    take_turn k r g = (Returns tt, g') /\
    ai_of g' k = Some (Some (AiConfuse orig (n - 1) (Some k))) /\
    message_history g' = message_history g.
Proof.
  intros Ha Hai Hn. unfold take_turn, creature_move. py_unfold.
  rewrite Ha; cbn. rewrite Hai; cbn.
  destruct (Z.ltb_spec 0 n) as [_|?]; [|lia]. cbn.
  eexists. split; [reflexivity|]. split; [|reflexivity].
  unfold ai_of; cbn. rewrite !list_lookup_alter_eq, Ha. reflexivity.
Qed.

Lemma take_turn_restores g k a orig n r :
  current_objects g !! k = Some a ->
  ai a = Some (AiConfuse orig n (Some k)) ->
  n <= 0 ->
  exists g',
    take_turn k r g = (Returns tt, g') /\ ai_of g' k = Some orig /\
    message_history g' = message_history g.
Proof.
  intros Ha Hai Hn. unfold take_turn. py_unfold.
  rewrite Ha; cbn. rewrite Hai; cbn.
  destruct (Z.ltb_spec 0 n) as [?|_]; [lia|]. cbn.
  eexists. split; [reflexivity|]. split; [|reflexivity].
  unfold ai_of; cbn. rewrite list_lookup_alter_eq, Ha. reflexivity.
Qed.

Lemma take_turns_app k rnds rnds' g :
  take_turns k (rnds ++ rnds') g
  = match take_turns k rnds g with
    | (Returns _, g') => take_turns k rnds' g'
    | (Raises e, g') => (Raises e, g')
    end.
Proof.
  revert g. induction rnds as [|r rnds IH]; intros g; [reflexivity|].
  simpl. py_unfold. destruct (take_turn k r g) as [[[]|e] g']; [apply IH|reflexivity].
Qed.

(** While turns are left, every turn of the confused actor uses one up and
    keeps the wrapper in place. *)
Lemma take_turns_confused k orig rnds :
  forall g n,
    ai_of g k = Some (Some (AiConfuse orig n (Some k))) ->
    Z.of_nat (length rnds) <= n ->
    exists g',
      take_turns k rnds g = (Returns tt, g') /\
      ai_of g' k
      = Some (Some (AiConfuse orig (n - Z.of_nat (length rnds)) (Some k))).
Proof.
  induction rnds as [|r rnds IH]; intros g n Hai Hlen.
  - exists g. split; [reflexivity|]. rewrite Hai. simpl. do 3 f_equal. lia.
  - unfold ai_of in Hai.
    destruct (current_objects g !! k) as [a|] eqn:Ha; [|discriminate].
    injection Hai as Hai. simpl length in Hlen.
    destruct (take_turn_confused g k a orig n r Ha Hai) as (g1 & Hrun & Hai1 & _);
      [lia|].
    destruct (IH g1 (n - 1) Hai1) as (g' & Hrun' & Hai'); [lia|].
    exists g'. split.
    + simpl. py_unfold. rewrite Hrun. exact Hrun'.
    + rewrite Hai'. simpl length. do 3 f_equal. lia.
Qed.

Section ConfusionFacts.

Context (menu_tile_select : TileSelectArgs -> Game -> option Coords).

(** C5: a cast of [cast_confusion] on a tile with a creature replaces the
    creature's ai component by an [AiConfuse] wrapper holding the
    creature's ai of before the cast and [num_turns = effect_length]; the
    wrapper stays for [effect_length] turns of the creature, counting
    down, and the creature's next turn puts the original ai back. *)
Theorem cast_confusion_wraps_then_restores caster c cc target t effect_length
    selected g :
  current_objects g !! caster = Some c ->
  creature c = Some cc ->
  menu_tile_select confusion_select g = Some selected ->
  creature_at_coords selected.1 selected.2 g = Some target ->
  current_objects g !! target = Some t ->
  let run := cast_confusion menu_tile_select caster effect_length g in
  run.1 = Returns true /\
  ai_of run.2 target
  = Some (Some (AiConfuse (ai t) effect_length (Some target))) /\
  (forall rnds,
      Z.of_nat (length rnds) <= effect_length ->
      ai_of (take_turns target rnds run.2).2 target
      = Some (Some (AiConfuse (ai t) (effect_length - Z.of_nat (length rnds))
                      (Some target)))) /\
  (forall rnds r,
      Z.of_nat (length rnds) = effect_length ->
      ai_of (take_turns target (rnds ++ [r]) run.2).2 target = Some (ai t)).
Proof.
  intros Hc Hcc Hsel Htarget Ht run.
  assert (Hrun : run.1 = Returns true /\
    ai_of run.2 target
    = Some (Some (AiConfuse (ai t) effect_length (Some target)))).
  { unfold run, cast_confusion. py_unfold. cbn. rewrite Hsel.
    destruct selected as [tx ty]. simpl in Htarget. rewrite Htarget.
    rewrite Hc; cbn. rewrite Hcc; cbn. rewrite Ht; cbn.
    split; [reflexivity|]. unfold ai_of, set_messages, set_objects; simpl.
    rewrite !list_lookup_alter_eq, Ht. reflexivity. }
  destruct Hrun as [Hret Hai]. split; [exact Hret|]. split; [exact Hai|]. split.
  - intros rnds Hlen.
    destruct (take_turns_confused target (ai t) rnds run.2 effect_length Hai Hlen)
      as (g' & -> & Hai'). exact Hai'.
  - intros rnds r Hlen. rewrite take_turns_app.
    destruct (take_turns_confused target (ai t) rnds run.2 effect_length Hai)
      as (g1 & -> & Hai1); [lia|].
    unfold ai_of in Hai1.
    destruct (current_objects g1 !! target) as [a1|] eqn:Ha1; [|discriminate].
    injection Hai1 as Hai1.
    destruct (take_turn_restores g1 target a1 (ai t)
                (effect_length - Z.of_nat (length rnds)) r Ha1 Hai1)
      as (g2 & Hrun2 & Hai2 & _); [lia|].
    simpl. py_unfold. rewrite Hrun2. exact Hai2.
Qed.

End ConfusionFacts.

Lemma cast_confusion_wraps_then_restores_witness :
  ai_of (cast_confusion (pick (Some (2, 0))) 0 2 level).2 1
  = Some (Some (AiConfuse (Some (AiOther "chase" (Some 1%nat))) 2 (Some 1%nat))) /\
  ai_of (take_turns 1 ([(1, 0); (0, -1)] ++ [(1, 1)])
           (cast_confusion (pick (Some (2, 0))) 0 2 level).2).2 1
  = Some (Some (AiOther "chase" (Some 1%nat))).
Proof.
  pose proof (cast_confusion_wraps_then_restores (pick (Some (2, 0))) 0%nat hero
    (mkCreature "Hero" 12 20) 1%nat rat 2 (2, 0) level
    eq_refl eq_refl eq_refl eq_refl eq_refl) as (_ & Hwrap & _ & Hrestore).
  split; [exact Hwrap|]. exact (Hrestore [(1, 0); (0, -1)] (1, 1) eq_refl).
Defined.

(** * Further properties of the spells *)

Lemma find_creature_insert cx cy objs k a a' :
  objs !! k = Some a ->
  is_creature_at cx cy a' = is_creature_at cx cy a ->
  find_creature cx cy (<[k := a']> objs) = find_creature cx cy objs.
Proof.
  revert k. induction objs as [|b objs IH]; intros k Hk Heq; [discriminate|].
  destruct k as [|k].
  - cbn. injection Hk as ->. rewrite Heq. reflexivity.
  - change (<[S k := a']> (b :: objs)) with (b :: <[k := a']> objs).
    simpl find_creature. rewrite (IH k Hk Heq). reflexivity.
Qed.

Section MoreSpellFacts.

Context (menu_tile_select : TileSelectArgs -> Game -> option Coords)
        (tiles_in_line : Coords -> Coords -> list Coords)
        (tiles_in_radius : Coords -> Z -> list Coords).

(** A confusion cast that finds a creature: the whole resulting state. *)
Lemma cast_confusion_run caster c cc target t effect_length selected g :
  current_objects g !! caster = Some c ->
  creature c = Some cc ->
  menu_tile_select confusion_select g = Some selected ->
  creature_at_coords selected.1 selected.2 g = Some target ->
  current_objects g !! target = Some t ->
  cast_confusion menu_tile_select caster effect_length g
  = (Returns true,
     set_messages
       (message_history g
          ++ [casts_confusion_on cc t; is_confused_for t effect_length])
       (set_objects
          (<[target := confused effect_length target t]> (current_objects g)) g)).
Proof.
  intros Hc Hcc Hsel Htarget Ht. unfold cast_confusion. py_unfold. cbn.
  rewrite Hsel. destruct selected as [tx ty]. simpl in Htarget. rewrite Htarget.
  rewrite Hc; cbn. rewrite Hcc; cbn. rewrite Ht; cbn.
  unfold set_messages, set_objects, casts_confusion_on, is_confused_for; cbn.
  rewrite <- app_assoc. do 2 f_equal.
  rewrite list_alter_alter_eq.
  apply list_eq. intros j. destruct (decide (j = target)) as [->|Hne].
  - rewrite list_lookup_alter_eq, Ht.
    rewrite list_lookup_insert_eq by (eapply lookup_lt_Some; exact Ht).
    reflexivity.
  - rewrite list_lookup_alter_ne, list_lookup_insert_ne by congruence.
    reflexivity.
Qed.

(** X1: a cast of [cast_confusion] on a selected tile that holds no
    creature returns [True] all the same, and changes nothing: no message
    is emitted and no actor is touched. *)
Theorem cast_confusion_empty_tile caster effect_length selected g :
  menu_tile_select confusion_select g = Some selected ->
  creature_at_coords selected.1 selected.2 g = None ->
  cast_confusion menu_tile_select caster effect_length g = (Returns true, g).
Proof.
  intros Hsel Hnone. unfold cast_confusion. py_unfold. cbn.
  rewrite Hsel. destruct selected as [tx ty]. simpl in Hnone. rewrite Hnone.
  reflexivity.
Qed.

(** X2: a cast of [cast_confusion] that finds a creature emits exactly its
    two messages, in order, makes no [take_damage] call, and changes the
    target's ai component only: the target keeps its position, name and
    creature component, and every other actor and global is as before. *)
Theorem cast_confusion_changes_ai_only caster c cc target t effect_length
    selected g :
  current_objects g !! caster = Some c ->
  creature c = Some cc ->
  menu_tile_select confusion_select g = Some selected ->
  creature_at_coords selected.1 selected.2 g = Some target ->
  current_objects g !! target = Some t ->
  exists g',
    cast_confusion menu_tile_select caster effect_length g = (Returns true, g') /\
    messages_emitted g g'
    = [casts_confusion_on cc t; is_confused_for t effect_length] /\
    damage_done g g' = [] /\
    (exists t', current_objects g' !! target = Some t' /\
       (x t', y t', display_name t', creature t')
       = (x t, y t, display_name t, creature t)) /\
    (forall j, j <> target -> current_objects g' !! j = current_objects g !! j) /\
    length (current_objects g') = length (current_objects g) /\
    PLAYER g' = PLAYER g /\ FOV_CALCULATE g' = FOV_CALCULATE g.
Proof.
  intros Hc Hcc Hsel Htarget Ht. eexists. split.
  { exact (cast_confusion_run caster c cc target t effect_length selected g
             Hc Hcc Hsel Htarget Ht). }
  split; [apply messages_emitted_app|].
  split; [unfold damage_done; cbn; apply drop_all|].
  cbn. split.
  - exists (confused effect_length target t). split; [|reflexivity].
    apply list_lookup_insert_eq. eapply lookup_lt_Some; exact Ht.
  - split; [|split; [apply length_insert|split; reflexivity]].
    intros j Hj. apply list_lookup_insert_ne. congruence.
Qed.

(** X3: confusion stacks.  A second cast on a creature that is still
    confused wraps the first wrapper: the original ai stored by the new
    wrapper is the first wrapper, with the turns it had been given, and not
    the creature's normal ai. *)
Theorem cast_confusion_twice_nests caster c cc target t n1 n2 selected g :
  current_objects g !! caster = Some c ->
  creature c = Some cc ->
  creature_at_coords selected.1 selected.2 g = Some target ->
  current_objects g !! target = Some t ->
  menu_tile_select confusion_select g = Some selected ->
  menu_tile_select confusion_select
    (cast_confusion menu_tile_select caster n1 g).2 = Some selected ->
  ai_of
    (cast_confusion menu_tile_select caster n2
       (cast_confusion menu_tile_select caster n1 g).2).2 target
  = Some (Some (AiConfuse (Some (AiConfuse (ai t) n1 (Some target))) n2
                  (Some target))).
Proof.
  intros Hc Hcc Htarget Ht Hsel1 Hsel2.
  rewrite (cast_confusion_run caster c cc target t n1 selected g
             Hc Hcc Hsel1 Htarget Ht) in Hsel2 |- *.
  cbn [snd] in Hsel2 |- *.
  set (g1 := set_messages _ _) in Hsel2 |- *.
  assert (Hlt : (target < length (current_objects g))%nat)
    by (eapply lookup_lt_Some; exact Ht).
  assert (Ht1 : current_objects g1 !! target = Some (confused n1 target t))
    by (cbn; apply list_lookup_insert_eq; exact Hlt).
  assert (Hc1 : exists c1, current_objects g1 !! caster = Some c1 /\
                           creature c1 = Some cc).
  { destruct (decide (caster = target)) as [->|Hne].
    - exists (confused n1 target t). split; [exact Ht1|].
      assert (c = t) as <- by congruence. exact Hcc.
    - exists c. split; [|exact Hcc].
      cbn. rewrite list_lookup_insert_ne by congruence. exact Hc. }
  destruct Hc1 as (c1 & Hc1 & Hcc1).
  assert (Htarget1 : creature_at_coords selected.1 selected.2 g1 = Some target).
  { unfold creature_at_coords in Htarget |- *. cbn.
    rewrite (find_creature_insert _ _ _ _ t); [exact Htarget|exact Ht|reflexivity]. }
  rewrite (cast_confusion_run caster c1 cc target (confused n1 target t) n2
             selected g1 Hc1 Hcc1 Hsel2 Htarget1 Ht1).
  unfold ai_of. cbn.
  rewrite list_lookup_insert_eq; [reflexivity|].
  rewrite length_insert. exact Hlt.
Qed.

End MoreSpellFacts.

Section MoreDamageFacts.

Context (menu_tile_select : TileSelectArgs -> Game -> option Coords)
        (tiles_in_line : Coords -> Coords -> list Coords)
        (tiles_in_radius : Coords -> Z -> list Coords).

(** X4: [cast_lightening] reads the caster's name only after the damage
    loop.  Cast by an actor without a creature component it raises, but the
    damage of the loop is done and stays done; no message is emitted. *)
Theorem cast_lightening_caster_without_creature caster c damage max_r selected g :
  current_objects g !! caster = Some c ->
  creature c = None ->
  menu_tile_select (lightening_select (x c, y c) max_r) g = Some selected ->
  (forall t, tiles_in_line (x c, y c) selected = [t] ->
             creature_at_coords t.1 t.2 g = None) ->
  cast_lightening menu_tile_select tiles_in_line caster (damage, max_r) g
  = (Raises AttributeError,
     apply_hits damage (hits g (tail (tiles_in_line (x c, y c) selected))) g) /\
  messages_emitted g
    (cast_lightening menu_tile_select tiles_in_line caster (damage, max_r) g).2
  = [].
Proof.
  intros Hc Hcc Hsel Hguard.
  rewrite (cast_lightening_run menu_tile_select tiles_in_line caster c damage
             max_r selected g Hc Hsel Hguard).
  cbn zeta. rewrite Hcc. split; [reflexivity|].
  unfold messages_emitted. cbn [snd]. rewrite apply_hits_messages. apply drop_all.
Qed.

(** X5: [cast_fireball] reads the caster's name before anything else.
    Cast by an actor without a creature component it raises with the game
    state untouched: no creature is damaged, no message is emitted. *)
Theorem cast_fireball_caster_without_creature caster c damage spell_range
    spell_radius selected g :
  current_objects g !! caster = Some c ->
  creature c = None ->
  menu_tile_select (fireball_select (x c, y c) spell_range spell_radius) g
    = Some selected ->
  cast_fireball menu_tile_select tiles_in_radius caster
    (damage, spell_range, spell_radius) g
  = (Raises AttributeError, g).
Proof.
  intros Hc Hcc Hsel. unfold cast_fireball. py_unfold.
  rewrite Hc; cbn. rewrite Hsel, Hcc. reflexivity.
Qed.

(** X6: the aim-away guard needs a creature on the single tile.  When the
    line has at most one tile and no creature stands on it, the cast goes
    through: it returns [True], announces the cast, reports that nothing
    was hit, and changes nothing else. *)
Theorem cast_lightening_short_line_without_creature caster c cc damage max_r
    selected g :
  current_objects g !! caster = Some c ->
  creature c = Some cc ->
  menu_tile_select (lightening_select (x c, y c) max_r) g = Some selected ->
  (length (tiles_in_line (x c, y c) selected) <= 1)%nat ->
  (forall t, tiles_in_line (x c, y c) selected = [t] ->
             creature_at_coords t.1 t.2 g = None) ->
  cast_lightening menu_tile_select tiles_in_line caster (damage, max_r) g
  = (Returns true,
     set_messages
       (message_history g ++ [casts_lightening cc; nothing_was_hit]) g).
Proof.
  intros Hc Hcc Hsel Hlen Hguard.
  rewrite (cast_lightening_run menu_tile_select tiles_in_line caster c damage
             max_r selected g Hc Hsel Hguard).
  cbn zeta. rewrite Hcc.
  destruct (tiles_in_line (x c, y c) selected) as [|t [|t' rest]];
    [reflexivity|reflexivity|simpl in Hlen; lia].
Qed.

(** X7: in a cast of [cast_lightening] that the guard does not stop,
    [take_damage] is called once for every tile after the first that holds
    a creature, in the order of the line and with the spell's damage; this
    holds whoever the caster is and whether or not tiles repeat. *)
Theorem cast_lightening_damage_in_line_order caster c damage max_r selected g :
  current_objects g !! caster = Some c ->
  menu_tile_select (lightening_select (x c, y c) max_r) g = Some selected ->
  (forall t, tiles_in_line (x c, y c) selected = [t] ->
             creature_at_coords t.1 t.2 g = None) ->
  damage_done g
    (cast_lightening menu_tile_select tiles_in_line caster (damage, max_r) g).2
  = (fun k => (k, damage))
      <$> omap (fun t => creature_at_coords t.1 t.2 g)
            (tail (tiles_in_line (x c, y c) selected)).
Proof.
  intros Hc Hsel Hguard.
  rewrite (cast_lightening_run menu_tile_select tiles_in_line caster c damage
             max_r selected g Hc Hsel Hguard).
  cbn zeta. fold (hits g (tail (tiles_in_line (x c, y c) selected))).
  destruct (creature c); cbn [snd].
  - apply damage_done_apply_hits.
  - unfold damage_done. rewrite apply_hits_damage_log. apply drop_app_length.
Qed.

(** X8: in a cast of [cast_fireball] with a tile selected, [take_damage] is
    called once for every listed tile that holds a creature, in the order
    of the list and with the spell's damage, whether or not tiles repeat;
    the cast announcement is the first message emitted. *)
Theorem cast_fireball_damage_in_list_order caster c cc damage spell_range
    spell_radius selected g :
  current_objects g !! caster = Some c ->
  creature c = Some cc ->
  menu_tile_select (fireball_select (x c, y c) spell_range spell_radius) g
    = Some selected ->
  damage_done g
    (cast_fireball menu_tile_select tiles_in_radius caster
       (damage, spell_range, spell_radius) g).2
  = (fun k => (k, damage))
      <$> omap (fun t => creature_at_coords t.1 t.2 g)
            (tiles_in_radius selected spell_radius) /\
  head (messages_emitted g
          (cast_fireball menu_tile_select tiles_in_radius caster
             (damage, spell_range, spell_radius) g).2)
  = Some (casts_fireball cc).
Proof.
  intros Hc Hcc Hsel.
  rewrite (cast_fireball_run menu_tile_select tiles_in_radius caster c cc damage
             spell_range spell_radius selected g Hc Hcc Hsel).
  cbn zeta. cbn [snd]. split.
  - apply damage_done_apply_hits.
  - rewrite messages_emitted_app. reflexivity.
Qed.

End MoreDamageFacts.

Lemma cast_confusion_empty_tile_witness :
  cast_confusion (pick (Some (1, 0))) 0 4 level = (Returns true, level).
Proof.
  exact (cast_confusion_empty_tile (pick (Some (1, 0))) 0%nat 4 (1, 0) level
           eq_refl eq_refl).
Defined.

Lemma cast_confusion_changes_ai_only_witness :
  exists g',
    cast_confusion (pick (Some (3, 0))) 0 4 level = (Returns true, g') /\
    messages_emitted level g'
    = [("Hero casts confusion on bat", COLOR_WHITE);
       ("bat is confused for 4 turns!", COLOR_GREEN)] /\
    damage_done level g' = [].
Proof.
  destruct (cast_confusion_changes_ai_only (pick (Some (3, 0))) 0%nat hero
              (mkCreature "Hero" 12 20) 2%nat bat 4 (3, 0) level
              eq_refl eq_refl eq_refl eq_refl eq_refl)
    as (g' & Hrun & Hmsgs & Hdmg & _).
  exists g'. split; [exact Hrun|]. split; [exact Hmsgs | exact Hdmg].
Defined.

Lemma cast_confusion_twice_nests_witness :
  ai_of
    (cast_confusion (pick (Some (2, 0))) 0 3
       (cast_confusion (pick (Some (2, 0))) 0 5 level).2).2 1
  = Some (Some (AiConfuse
                  (Some (AiConfuse (Some (AiOther "chase" (Some 1%nat))) 5
                           (Some 1%nat))) 3 (Some 1%nat))).
Proof.
  exact (cast_confusion_twice_nests (pick (Some (2, 0))) 0%nat hero
           (mkCreature "Hero" 12 20) 1%nat rat 5 3 (2, 0) level
           eq_refl eq_refl eq_refl eq_refl eq_refl eq_refl).
Defined.

Lemma cast_lightening_caster_without_creature_witness :
  cast_lightening (pick (Some (3, 0))) Map.tiles_in_line 3 (3, 5) level
  = (Raises AttributeError, apply_hits 3 [1%nat; 2%nat] level).
Proof.
  refine (proj1 (cast_lightening_caster_without_creature (pick (Some (3, 0)))
    Map.tiles_in_line 3%nat potion 3 5 (3, 0) level eq_refl eq_refl eq_refl _)).
  intros t Ht. vm_compute in Ht. discriminate Ht.
Defined.

Lemma cast_fireball_caster_without_creature_witness :
  cast_fireball (pick (Some (2, 0))) Map.tiles_in_radius 3 (3, 5, 1) level
  = (Raises AttributeError, level).
Proof.
  exact (cast_fireball_caster_without_creature (pick (Some (2, 0)))
           Map.tiles_in_radius 3%nat potion 3 5 1 (2, 0) level
           eq_refl eq_refl eq_refl).
Defined.

Lemma cast_lightening_short_line_without_creature_witness :
  cast_lightening (pick (Some (9, 9))) (fun _ t => [t]) 0 (3, 5) level
  = (Returns true,
     set_messages
       [("Hero casts lightening", COLOR_WHITE); nothing_was_hit] level).
Proof.
  refine (cast_lightening_short_line_without_creature (pick (Some (9, 9)))
    (fun _ t => [t]) 0%nat hero (mkCreature "Hero" 12 20) 3 5 (9, 9) level
    eq_refl eq_refl eq_refl _ _).
  - simpl. lia.
  - intros t [= <-]. reflexivity.
Defined.

Lemma cast_lightening_damage_in_line_order_witness :
  damage_done level
    (cast_lightening (pick (Some (3, 0))) Map.tiles_in_line 0 (3, 5) level).2
  = [(1%nat, 3); (2%nat, 3)].
Proof.
  refine (cast_lightening_damage_in_line_order (pick (Some (3, 0)))
    Map.tiles_in_line 0%nat hero 3 5 (3, 0) level eq_refl eq_refl _).
  intros t Ht. vm_compute in Ht. discriminate Ht.
Defined.

Lemma cast_fireball_damage_in_list_order_witness :
  damage_done level
    (cast_fireball (pick (Some (2, 0))) Map.tiles_in_radius 0 (3, 5, 1) level).2
  = [(1%nat, 3); (2%nat, 3)].
Proof.
  exact (proj1 (cast_fireball_damage_in_list_order (pick (Some (2, 0)))
    Map.tiles_in_radius 0%nat hero (mkCreature "Hero" 12 20) 3 5 1 (2, 0) level
    eq_refl eq_refl eq_refl)).
Defined.

(** * Sprite sheets *)


Lemma scaled_frame w h a scale :
  match scale with
  | Some size => Assets.scale_sprite size (Assets.mkSprite (w, h) a None)
  | None => Assets.mkSprite (w, h) a None
  end = Assets.mkSprite (w, h) a scale.
Proof. destruct scale; reflexivity. Qed.






(** X12: an animation of one sprite is the still image: for every column
    letter, known or not, [get_animation(col, row, 1, w, h, scale)] and
    [get_image(col, row, w, h, scale)] give the same result. *)
Theorem get_animation_of_one_is_get_image col row w h scale :
  Assets.get_animation col row 1 w h scale = Assets.get_image col row w h scale.
Proof.
  unfold Assets.get_animation, Assets.get_image.
  change (seqZ 0 1) with [0]. cbn [Assets.animation_loop].
  destruct (Assets.tileDict_getitem col) as [c|e]; [|reflexivity].
  rewrite !scaled_frame. rewrite !app_nil_l.
  replace (c * w + w * 0) with (c * w) by lia. reflexivity.
Qed.

(** * Sound effects and volume *)

Section AudioFacts.

Context {Vol : Type}.
Implicit Types (self : Assets.Audio Vol) (p : Assets.Preferences Vol).

Lemma with_volume_twice (v : Vol) (s : Assets.Sound Vol) :
  with_volume v (with_volume v s) = with_volume v s.
Proof. reflexivity. Qed.

(** Altering a list at a sequence of positions with an idempotent function:
    the positions of the sequence are altered, the others are not. *)
Lemma alter_all_lookup {A} (f : A -> A) (ks : list nat) :
  (forall a, f (f a) = f a) ->
  forall (l : list A) j,
    foldl (fun l k => alter f k l) l ks !! j
    = if bool_decide (j ∈ ks) then f <$> l !! j else l !! j.
Proof.
  intros Hf. induction ks as [|k ks IH]; intros l j; [reflexivity|].
  cbn [foldl]. rewrite IH. destruct (decide (j = k)) as [->|Hne].
  - rewrite list_lookup_alter_eq.
    rewrite (bool_decide_true (k ∈ k :: ks)) by left.
    destruct (bool_decide (k ∈ ks)); [|reflexivity].
    destruct (l !! k); simpl; [rewrite Hf|]; reflexivity.
  - rewrite list_lookup_alter_ne by congruence.
    rewrite (bool_decide_ext (j ∈ k :: ks) (j ∈ ks)); [reflexivity|].
    rewrite elem_of_cons. intuition congruence.
Qed.

Lemma alter_all_length {A} (f : A -> A) (ks : list nat) (l : list A) :
  length (foldl (fun l k => alter f k l) l ks) = length l.
Proof.
  revert l. induction ks as [|k ks IH]; intros l; [reflexivity|].
  cbn [foldl]. rewrite IH. apply length_alter.
Qed.

Lemma volume_loop_run p sfxs self :
  Assets.PREFERENCES self = Some p ->
  Assets.volume_loop sfxs self
  = (Assets.Ok tt,
     Assets.mkAudio
       (foldl (fun l k => alter (with_volume (Assets.sfx_volume_val p)) k l)
          (Assets.sounds self) sfxs)
       (Assets.sfx_list self) (Assets.music_volume self)
       (Assets.PREFERENCES self)).
Proof.
  revert self. induction sfxs as [|k sfxs IH]; intros self Hp.
  - destruct self; reflexivity.
  - cbn [Assets.volume_loop foldl]. rewrite Hp.
    rewrite IH by exact Hp. cbn. rewrite Hp. reflexivity.
Qed.

Lemma volume_adjust_run p self :
  Assets.PREFERENCES self = Some p ->
  Assets.volume_adjust self
  = (Assets.Ok tt,
     Assets.mkAudio
       (foldl (fun l k => alter (with_volume (Assets.sfx_volume_val p)) k l)
          (Assets.sounds self) (Assets.sfx_list self))
       (Assets.sfx_list self) (Some (Assets.music_volume_val p)) (Some p)).
Proof.
  intros Hp. unfold Assets.volume_adjust.
  rewrite (volume_loop_run p) by exact Hp. cbn. rewrite Hp. reflexivity.
Qed.

Lemma volume_adjust_without_preferences self :
  Assets.PREFERENCES self = None ->
  Assets.volume_adjust self = (Assets.Raise Assets.AttributeError, self).
Proof.
  intros Hp. unfold Assets.volume_adjust.
  destruct (Assets.sfx_list self) as [|k ks]; cbn; rewrite Hp; reflexivity.
Qed.

(** X13: [sfx_add] registers a fresh sound: when the file loads, the sound
    returned is a new object, appended to [sfx_list] and to nothing else,
    with no volume set on it, and the sounds and settings there were stay
    as they are; when the file does not load, the call raises and nothing
    is registered. *)
Theorem sfx_add_registers_fresh_sound (loadable : list string -> bool)
    file_name self :
  Assets.sfx_list_valid self ->
  (loadable ["data"; "audio"; "sfx"; file_name] = true ->
     exists self',
       Assets.sfx_add loadable file_name self
       = (Assets.Ok (length (Assets.sounds self)), self') /\
       ((length (Assets.sounds self)) ∉ (Assets.sfx_list self)) /\
       Assets.sfx_list self'
       = Assets.sfx_list self ++ [length (Assets.sounds self)] /\
       Assets.sounds self'
       = Assets.sounds self
           ++ [Assets.mkSound ["data"; "audio"; "sfx"; file_name] None] /\
       Assets.sfx_list_valid self' /\
       Assets.music_volume self' = Assets.music_volume self /\
       Assets.PREFERENCES self' = Assets.PREFERENCES self) /\
  (loadable ["data"; "audio"; "sfx"; file_name] = false ->
     Assets.sfx_add loadable file_name self
     = (Assets.Raise (Assets.LoadError ["data"; "audio"; "sfx"; file_name]),
        self)).
Proof.
  intros Hvalid. unfold Assets.sfx_add. split; intros ->; [|reflexivity].
  eexists. split; [reflexivity|]. cbn.
  split; [intros Hin; apply Hvalid in Hin; lia|].
  split; [reflexivity|]. split; [reflexivity|].
  split; [|split; reflexivity].
  intros k Hk. cbn in Hk |- *. rewrite length_app. cbn.
  apply elem_of_app in Hk as [Hk|Hk].
  - apply Hvalid in Hk. lia.
  - apply list_elem_of_singleton in Hk. lia.
Qed.

(** X14: with the preferences loaded, [volume_adjust] returns, sets the
    volume of every sound of [sfx_list] to the sound-effect setting and the
    music volume to the music setting, and changes nothing else: a sound
    that is not in [sfx_list] keeps its volume, every sound keeps its file. *)
Theorem volume_adjust_sets_every_sfx p self :
  Assets.PREFERENCES self = Some p ->
  exists self',
    Assets.volume_adjust self = (Assets.Ok tt, self') /\
    Assets.sfx_list self' = Assets.sfx_list self /\
    Assets.PREFERENCES self' = Some p /\
    Assets.music_volume self' = Some (Assets.music_volume_val p) /\
    length (Assets.sounds self') = length (Assets.sounds self) /\
    (forall k s,
        Assets.sounds self !! k = Some s ->
        Assets.sounds self' !! k
        = Some (if bool_decide (k ∈ Assets.sfx_list self)
                then with_volume (Assets.sfx_volume_val p) s else s)).
Proof.
  intros Hp. eexists. split; [exact (volume_adjust_run p self Hp)|]. cbn.
  split; [reflexivity|]. split; [reflexivity|]. split; [reflexivity|].
  split; [apply alter_all_length|].
  intros k s Hs. rewrite alter_all_lookup by apply with_volume_twice.
  rewrite Hs. destruct (bool_decide (k ∈ Assets.sfx_list self)); reflexivity.
Qed.

(** X15: [volume_adjust] is idempotent: running it again right away gives
    the same result and the same state, also when it raises. *)
Theorem volume_adjust_idempotent self :
  Assets.volume_adjust (Assets.volume_adjust self).2 = Assets.volume_adjust self.
Proof.
  destruct (Assets.PREFERENCES self) as [p|] eqn:Hp.
  - rewrite (volume_adjust_run p self Hp). cbn [snd].
    rewrite (volume_adjust_run p) by reflexivity. cbn. do 2 f_equal.
    apply list_eq. intros j.
    rewrite !alter_all_lookup by apply with_volume_twice.
    destruct (bool_decide (j ∈ Assets.sfx_list self)); [|reflexivity].
    destruct (Assets.sounds self !! j); reflexivity.
  - rewrite (volume_adjust_without_preferences self Hp). cbn [snd].
    apply volume_adjust_without_preferences. exact Hp.
Qed.

Lemma sfx_add_all_run (loadable : list string -> bool) file_names self :
  Forall (fun f => loadable ["data"; "audio"; "sfx"; f] = true) file_names ->
  Assets.sfx_add_all loadable file_names self
  = (Assets.Ok (seq (length (Assets.sounds self)) (length file_names)),
     Assets.mkAudio
       (Assets.sounds self
          ++ ((fun f => Assets.mkSound ["data"; "audio"; "sfx"; f] None)
                <$> file_names))
       (Assets.sfx_list self
          ++ seq (length (Assets.sounds self)) (length file_names))
       (Assets.music_volume self) (Assets.PREFERENCES self)).
Proof.
  intros Hall. revert self. induction Hall as [|f fs Hf Hfs IH]; intros self.
  - cbn. rewrite !app_nil_r. destruct self; reflexivity.
  - cbn [Assets.sfx_add_all]. unfold Assets.sfx_add at 1. rewrite Hf.
    rewrite IH. cbn. rewrite length_app, Nat.add_1_r.
    rewrite <- !app_assoc. reflexivity.
Qed.

(** X16: sound effects added one after the other and then adjusted all
    play at the sound-effect setting: after [sfx_add] for each file of a
    list and one [volume_adjust], the sound returned for the [i]-th file is
    the sound loaded from that file and its volume is the setting. *)
Theorem sfx_added_then_adjusted (loadable : list string -> bool) p file_names
    self :
  Assets.PREFERENCES self = Some p ->
  Forall (fun f => loadable ["data"; "audio"; "sfx"; f] = true) file_names ->
  exists refs self1 self2,
    Assets.sfx_add_all loadable file_names self = (Assets.Ok refs, self1) /\
    Assets.volume_adjust self1 = (Assets.Ok tt, self2) /\
    length refs = length file_names /\
    Assets.sfx_list self2 = Assets.sfx_list self ++ refs /\
    (forall i f,
        file_names !! i = Some f ->
        exists r,
          refs !! i = Some r /\
          Assets.sounds self2 !! r
          = Some (Assets.mkSound ["data"; "audio"; "sfx"; f]
                    (Some (Assets.sfx_volume_val p)))).
Proof.
  intros Hp Hall. eexists _, _, _.
  split; [exact (sfx_add_all_run loadable file_names self Hall)|].
  split; [apply (volume_adjust_run p); exact Hp|]. cbn.
  split; [apply length_seq|]. split; [reflexivity|].
  intros i f Hf. exists (length (Assets.sounds self) + i)%nat.
  assert (Hi : (i < length file_names)%nat) by (eapply lookup_lt_Some; exact Hf).
  split; [apply lookup_seq; split; [reflexivity|exact Hi]|].
  rewrite alter_all_lookup by apply with_volume_twice.
  rewrite bool_decide_true.
  - rewrite lookup_app_r by lia.
    replace (length (Assets.sounds self) + i - length (Assets.sounds self))%nat
      with i by lia.
    rewrite list_lookup_fmap, Hf. reflexivity.
  - apply elem_of_app. right. apply elem_of_seq. lia.
Qed.

End AudioFacts.

Lemma quiet_valid : Assets.sfx_list_valid quiet.
Proof.
  intros k Hk. apply list_elem_of_singleton in Hk. subst k. simpl. lia.
Qed.

Lemma sfx_add_registers_fresh_sound_witness :
  exists self',
    Assets.sfx_add (fun _ => true) "rollover1.wav" quiet
    = (Assets.Ok 1%nat, self') /\
    Assets.sfx_list self' = [0%nat; 1%nat].
Proof.
  destruct (proj1 (sfx_add_registers_fresh_sound (fun _ => true) "rollover1.wav"
                     quiet quiet_valid) eq_refl)
    as (self' & Hrun & _ & Hlist & _).
  exists self'. split; [exact Hrun | exact Hlist].
Defined.

Lemma volume_adjust_sets_every_sfx_witness :
  exists self',
    Assets.volume_adjust quiet = (Assets.Ok tt, self') /\
    Assets.music_volume self' = Some 60 /\
    Assets.sounds self' !! 0%nat
    = Some (Assets.mkSound ["data"; "audio"; "sfx"; "click3.wav"] (Some 30)).
Proof.
  destruct (volume_adjust_sets_every_sfx (Assets.mkPreferences 30 60) quiet
              eq_refl) as (self' & Hrun & _ & _ & Hmusic & _ & Hsounds).
  exists self'. split; [exact Hrun|]. split; [exact Hmusic|].
  exact (Hsounds 0%nat _ eq_refl).
Defined.

Lemma sfx_added_then_adjusted_witness :
  exists refs self1 self2,
    Assets.sfx_add_all (fun _ => true) ["hit_punch_1.wav"; "coin_pickup.wav"] quiet
    = (Assets.Ok refs, self1) /\
    Assets.volume_adjust self1 = (Assets.Ok tt, self2) /\
    length refs = 2%nat /\
    Assets.sfx_list self2 = [0%nat] ++ refs.
Proof.
  destruct (sfx_added_then_adjusted (fun _ => true) (Assets.mkPreferences 30 60)
              ["hit_punch_1.wav"; "coin_pickup.wav"] quiet eq_refl)
    as (refs & self1 & self2 & Hadd & Hadj & Hlen & Hlist & _).
  { repeat constructor. }
  exists refs, self1, self2. auto.
Defined.

(** * Stairs and items *)

Lemma filter_agree {A} (P Q : A -> Prop) `{!forall a, Decision (P a)}
    `{!forall a, Decision (Q a)} (l : list A) :
  (forall a, a ∈ l -> (P a <-> Q a)) -> filter P l = filter Q l.
Proof.
  induction l as [|a l IH]; intros Hagree; [reflexivity|].
  rewrite !filter_cons.
  rewrite IH by (intros b Hb; apply Hagree; right; exact Hb).
  destruct (decide (P a)) as [HP|HP], (decide (Q a)) as [HQ|HQ];
    try reflexivity; exfalso; apply (Hagree a) in HP || apply HP, (Hagree a);
    try left; try assumption; contradiction.
Qed.

Section ActionFacts.

Context (World Obj : Type)
        (PLAYER_of : World -> option Obj)
        (obj_x obj_y : Obj -> World -> Z)
        (map_object_at_coords : Z -> Z -> World -> list Obj)
        (obj_stairs obj_portal obj_item : Obj -> World -> bool)
        (stairs_use portal_use : Obj -> PyOver World unit)
        (item_pick_up : Obj -> option Obj -> PyOver World unit)
        (item_drop : Obj -> Z -> Z -> PyOver World unit)
        (container_inventory : Obj -> World -> option (list Obj)).

Ltac over_unfold :=
  unfold mbind, mret, pyover_mbind, pyover_mret, over_get, over_attr.

Lemma use_stairs_loop_skips pre rest w :
  (forall o, o ∈ pre -> obj_stairs o w = false /\ obj_portal o w = false) ->
  use_stairs_loop World Obj obj_stairs obj_portal stairs_use portal_use
    (pre ++ rest) w
  = use_stairs_loop World Obj obj_stairs obj_portal stairs_use portal_use rest w.
Proof.
  induction pre as [|o pre IH]; intros Hpre; [reflexivity|].
  destruct (Hpre o) as [Hs Hp]; [left|].
  rewrite <- app_comm_cons. cbn [use_stairs_loop]. over_unfold.
  rewrite Hs, Hp. apply IH. intros o' Ho'. apply Hpre. right. exact Ho'.
Qed.

(** X17: with nothing to use on the player's tile (no object there, or
    none with a stairs or portal component) [use_stairs] returns [None] and
    leaves the world as it is. *)
Theorem use_stairs_nothing_to_use p w :
  PLAYER_of w = Some p ->
  (forall o, o ∈ map_object_at_coords (obj_x p w) (obj_y p w) w ->
             obj_stairs o w = false /\ obj_portal o w = false) ->
  use_stairs World Obj PLAYER_of obj_x obj_y map_object_at_coords obj_stairs
    obj_portal stairs_use portal_use w
  = (Returns None, w).
Proof.
  intros Hp Hnone. unfold use_stairs. over_unfold. rewrite Hp.
  rewrite <- (app_nil_r (map_object_at_coords _ _ _)).
  rewrite use_stairs_loop_skips by exact Hnone. reflexivity.
Qed.

(** X18: [use_stairs] stops at the first stairs.  When the first object of
    the player's tile that has a stairs or portal component has stairs, its
    [stairs.use()] is the only call made: the objects after it are not
    looked at, whatever they hold, and its own portal, if it has one, is
    not used.  The result is "Just Changed Floors" when the call returns. *)
Theorem use_stairs_first_stairs_only p w pre obj post :
  PLAYER_of w = Some p ->
  map_object_at_coords (obj_x p w) (obj_y p w) w = pre ++ obj :: post ->
  (forall o, o ∈ pre -> obj_stairs o w = false /\ obj_portal o w = false) ->
  obj_stairs obj w = true ->
  use_stairs World Obj PLAYER_of obj_x obj_y map_object_at_coords obj_stairs
    obj_portal stairs_use portal_use w
  = match stairs_use obj w with
    | (Returns _, w') => (Returns (Some "Just Changed Floors"), w')
    | (Raises e, w') => (Raises e, w')
    end.
Proof.
  intros Hp Hlist Hpre Hstairs. unfold use_stairs. over_unfold.
  rewrite Hp, Hlist. rewrite use_stairs_loop_skips by exact Hpre.
  cbn [use_stairs_loop]. over_unfold. rewrite Hstairs.
  destruct (stairs_use obj w) as [[[]|e] w']; reflexivity.
Qed.

Lemma grab_item_loop_filter objs :
  pick_up_keeps_items World Obj obj_item item_pick_up ->
  NoDup objs ->
  forall w,
    grab_item_loop World Obj PLAYER_of obj_item item_pick_up objs w
    = pick_up_all World Obj PLAYER_of item_pick_up
        (filter (fun o => obj_item o w = true) objs) w.
Proof.
  intros Hframe. induction 1 as [|o objs Ho Hnd IH]; intros w; [reflexivity|].
  cbn [grab_item_loop]. over_unfold.
  destruct (obj_item o w) eqn:Hitem.
  - rewrite filter_cons_True by exact Hitem. cbn [pick_up_all]. over_unfold.
    pose proof (Hframe o (PLAYER_of w) w) as Hkeep.
    destruct (item_pick_up o (PLAYER_of w) w) as [[[]|e] w1]; [|reflexivity].
    rewrite IH. f_equal. apply filter_agree.
    intros o' Ho'. cbn [snd] in Hkeep. rewrite Hkeep; [reflexivity|].
    intros ->. exact (Ho Ho').
  - rewrite filter_cons_False by (rewrite Hitem; discriminate). apply IH.
Qed.

(** X19: [grab_item] picks up every item of the player's tile, not just
    the first: provided picking one object up does not change whether
    another object is an item, [pick_up] is called, in order, on exactly
    the objects of the tile that were items when [grab_item] was called. *)
Theorem grab_item_picks_up_every_item p w :
  pick_up_keeps_items World Obj obj_item item_pick_up ->
  PLAYER_of w = Some p ->
  NoDup (map_object_at_coords (obj_x p w) (obj_y p w) w) ->
  grab_item World Obj PLAYER_of obj_x obj_y map_object_at_coords obj_item
    item_pick_up w
  = pick_up_all World Obj PLAYER_of item_pick_up
      (filter (fun o => obj_item o w = true)
         (map_object_at_coords (obj_x p w) (obj_y p w) w)) w.
Proof.
  intros Hframe Hp Hnd. unfold grab_item. over_unfold. rewrite Hp.
  apply grab_item_loop_filter; assumption.
Qed.

(** X20: [drop_item] drops the last entry of the player's inventory, and
    only that one, at the player's position; on an empty inventory it does
    nothing and does not raise; it raises when the last entry has no item
    component or the player has no container. *)
Theorem drop_item_drops_last_only p w :
  PLAYER_of w = Some p ->
  (container_inventory p w = Some [] ->
     drop_item World Obj PLAYER_of obj_x obj_y obj_item item_drop
       container_inventory w = (Returns tt, w)) /\
  (forall inventory obj,
     container_inventory p w = Some (inventory ++ [obj]) ->
     drop_item World Obj PLAYER_of obj_x obj_y obj_item item_drop
       container_inventory w
     = if obj_item obj w then item_drop obj (obj_x p w) (obj_y p w) w
       else (Raises AttributeError, w)) /\
  (container_inventory p w = None ->
     drop_item World Obj PLAYER_of obj_x obj_y obj_item item_drop
       container_inventory w = (Raises AttributeError, w)).
Proof.
  intros Hp. unfold drop_item. over_unfold. rewrite Hp.
  split; [|split].
  - intros ->. reflexivity.
  - intros inventory obj ->. rewrite length_app, last_snoc.
    replace (0 <? length inventory + length [obj])%nat with true
      by (symmetry; apply Nat.ltb_lt; simpl; lia).
    destruct (obj_item obj w); reflexivity.
  - intros ->. reflexivity.
Qed.

End ActionFacts.

Lemma use_stairs_nothing_to_use_witness :
  use_stairs (list Done) nat (fun _ => Some 0%nat) (fun _ _ => 4) (fun _ _ => 7)
    (fun _ _ _ => [1%nat]) (fun o _ => Nat.eqb o 2) (fun o _ => Nat.eqb o 3)
    (fun o => record_done (UsedStairs o)) (fun o => record_done (UsedPortal o)) []
  = (Returns None, []).
Proof.
  apply (use_stairs_nothing_to_use (list Done) nat (fun _ => Some 0%nat)
           (fun _ _ => 4) (fun _ _ => 7) (fun _ _ _ => [1%nat])
           (fun o _ => Nat.eqb o 2) (fun o _ => Nat.eqb o 3)
           (fun o => record_done (UsedStairs o))
           (fun o => record_done (UsedPortal o)) 0%nat []); [reflexivity|].
  intros o Ho. apply list_elem_of_singleton in Ho. subst o. split; reflexivity.
Defined.

Lemma use_stairs_first_stairs_only_witness :
  use_stairs (list Done) nat (fun _ => Some 0%nat) (fun _ _ => 4) (fun _ _ => 7)
    (fun _ _ _ => [1%nat; 2%nat; 3%nat]) (fun o _ => Nat.eqb o 2)
    (fun o _ => Nat.eqb o 3)
    (fun o => record_done (UsedStairs o)) (fun o => record_done (UsedPortal o)) []
  = (Returns (Some "Just Changed Floors"), [UsedStairs 2]).
Proof.
  apply (use_stairs_first_stairs_only (list Done) nat (fun _ => Some 0%nat)
           (fun _ _ => 4) (fun _ _ => 7) (fun _ _ _ => [1%nat; 2%nat; 3%nat])
           (fun o _ => Nat.eqb o 2) (fun o _ => Nat.eqb o 3)
           (fun o => record_done (UsedStairs o))
           (fun o => record_done (UsedPortal o)) 0%nat [] [1%nat] 2%nat [3%nat]);
    [reflexivity | reflexivity | | reflexivity].
  intros o Ho. apply list_elem_of_singleton in Ho. subst o. split; reflexivity.
Defined.

Lemma grab_item_picks_up_every_item_witness :
  grab_item (list Done) nat (fun _ => Some 0%nat) (fun _ _ => 4) (fun _ _ => 7)
    (fun _ _ _ => [1%nat; 2%nat; 3%nat])
    (fun o _ => Nat.eqb o 1 || Nat.eqb o 3)
    (fun o actor => record_done (PickedUp o actor)) []
  = (Returns tt, [PickedUp 1 (Some 0%nat); PickedUp 3 (Some 0%nat)]).
Proof.
  apply (grab_item_picks_up_every_item (list Done) nat (fun _ => Some 0%nat)
           (fun _ _ => 4) (fun _ _ => 7) (fun _ _ _ => [1%nat; 2%nat; 3%nat])
           (fun o _ => Nat.eqb o 1 || Nat.eqb o 3)
           (fun o actor => record_done (PickedUp o actor)) 0%nat []).
  - intros obj actor w o _. reflexivity.
  - reflexivity.
  - decide_by_computation.
Defined.

Lemma drop_item_drops_last_only_witness :
  drop_item (list Done) nat (fun _ => Some 0%nat) (fun _ _ => 4) (fun _ _ => 7)
    (fun _ _ => true) (fun o dx dy => record_done (Dropped o dx dy))
    (fun _ _ => Some [5%nat; 6%nat]) []
  = (Returns tt, [Dropped 6 4 7]).
Proof.
  exact (proj1 (proj2 (drop_item_drops_last_only (list Done) nat
    (fun _ => Some 0%nat) (fun _ _ => 4) (fun _ _ => 7) (fun _ _ => true)
    (fun o dx dy => record_done (Dropped o dx dy))
    (fun _ _ => Some [5%nat; 6%nat]) 0%nat [] eq_refl)) [5%nat] 6%nat eq_refl).
Defined.
